(** * rest-decorators: the route registry of [src/decorations.ts]

    A shallow embedding of the decorator metadata, of the registry class
    [Responders] (register, init, get) and of the route entry class
    [Responder] (match, call), followed by the properties of the dispatch
    engine.

    Conventions of the embedding
    - a JavaScript value that is a string or [undefined] is an
      [option string], [None] being [undefined];
    - an array with holes is a [list (option A)]: a hole and an explicit
      [undefined] both read as [None], which is also what the spread
      [...args] hands to the callee;
    - an exception (for the asynchronous [call], a rejected promise) is the
      [Throw] case of [Completion];
    - the built-in [RegExp] is an object with an [exec] method, a function
      of the subject (patterns without the [g] and [y] flags, whose
      [lastIndex] would make [test] and [exec] depend on earlier calls); a
      small backtracking engine in the style of the ECMAScript pattern
      semantics provides concrete patterns;
    - [heap] counts the objects allocated so far, so that two instances of
      one class can be told apart. *)

From Stdlib Require Import Ascii String.
From stdpp Require Import gmap strings list fin_maps.


(** ** JavaScript values and arrays *)

(** [!v] for a value of type [string | undefined]. *)
Definition falsy (v : option string) : bool :=
  match v with
  | None => true
  | Some s => String.eqb s ""
  end.

(** [a[i] = v] on a JavaScript array: an index in range is overwritten, an
    index past the end extends the array, the positions in between being
    holes. *)
Definition array_set {A : Type} (a : list (option A)) (i : nat) (v : option A)
  : list (option A) :=
  if decide (i < length a) then <[i := v]> a
  else a ++ replicate (i - length a) None ++ [v].

(** [a[i]] on an array of [string | undefined]: out of range reads as
    [undefined]. *)
Definition array_get {A : Type} (a : list (option A)) (i : nat) : option A :=
  match a !! i with
  | Some v => v
  | None => None
  end.

Inductive JSError : Type :=
| TypeError
| UserError (msg : string).

Inductive Completion (A : Type) : Type :=
| Normal (a : A)
| Throw (e : JSError).
Arguments Normal {A} a.
Arguments Throw {A} e.

(** ** Regular expressions *)

(** The array returned by [RegExp.prototype.exec]: position 0 holds the
    matched text, position [k] the text of capture group [k], [None] when
    the group did not take part in the match. *)
Abbreviation MatchArray := (list (option string)).

(** A [RegExp] without the [g] and [y] flags: [exec] is a function of the
    subject string alone ([null] is [None]). *)
Record RegExp : Type := mkRegExp {
  exec : string -> option MatchArray
}.

(** [RegExp.prototype.test]: true when [exec] does not return [null]. *)
Definition test (re : RegExp) (s : string) : bool :=
  match exec re s with
  | Some _ => true
  | None => false
  end.

(** Pattern syntax: a fragment of the ECMAScript grammar. [Group n p] is the
    [n]-th capturing group, groups being numbered from 1. *)
Inductive Pattern : Type :=
| Empty
| Chr (c : ascii)
| Digit
| AnyChar
| Seq (p q : Pattern)
| Alt (p q : Pattern)
| Star (p : Pattern)
| Group (n : nat) (p : Pattern)
| Bol
| Eol.

Definition Plus (p : Pattern) : Pattern := Seq p (Star p).
Definition Opt (p : Pattern) : Pattern := Alt p Empty.

Fixpoint lit_chars (cs : list ascii) : Pattern :=
  match cs with
  | [] => Empty
  | c :: cs' => Seq (Chr c) (lit_chars cs')
  end.

(** The pattern that matches the characters of [s] literally. *)
Definition lit (s : string) : Pattern := lit_chars (list_ascii_of_string s).

Definition is_digit (c : ascii) : bool :=
  let n := nat_of_ascii c in ((48 <=? n) && (n <=? 57))%nat.

(** [.] matches every character but a line terminator. *)
Definition is_line_terminator (c : ascii) : bool :=
  let n := nat_of_ascii c in ((n =? 10) || (n =? 13))%nat.

(** Capture groups that occur in a pattern. *)
Fixpoint groups (p : Pattern) : list nat :=
  match p with
  | Seq p q | Alt p q => groups p ++ groups q
  | Star p => groups p
  | Group n p => n :: groups p
  | _ => []
  end.

Definition ngroups (p : Pattern) : nat := foldr max 0 (groups p).

(** State of a match in progress: the position reached in the subject and
    the captures so far ([captures !! k] belongs to group [k + 1]). *)
Record MatchState : Type := mkState {
  endIndex : nat;
  captures : list (option string)
}.

Definition Continuation : Type := MatchState -> option MatchState.

Definition advance (x : MatchState) : MatchState :=
  mkState (S (endIndex x)) (captures x).

Definition set_capture (n : nat) (v : option string) (x : MatchState)
  : MatchState :=
  mkState (endIndex x) (<[pred n := v]> (captures x)).

Definition clear_captures (ns : list nat) (x : MatchState) : MatchState :=
  foldr (fun n y => set_capture n None y) x ns.

Definition substring_chars (s : list ascii) (i j : nat) : string :=
  string_of_list_ascii (take (j - i) (drop i s)).

Definition char_matcher (s : list ascii) (f : ascii -> bool)
    (x : MatchState) (c : Continuation) : option MatchState :=
  match s !! endIndex x with
  | Some ch => if f ch then c (advance x) else None
  | None => None
  end.

(** Repetition of a body matcher [m], greedy: try one more iteration, and
    only when that fails hand the current state to [c]. An iteration that
    consumes nothing is rejected, so [fuel], the number of characters left,
    is never exhausted before the subject is. *)
Fixpoint repeat_matcher (m : MatchState -> Continuation -> option MatchState)
    (c : Continuation) (fuel : nat) (x : MatchState) {struct fuel}
  : option MatchState :=
  let iterate :=
    match fuel with
    | 0 => None
    | S fuel' =>
        m x (fun y => if decide (endIndex x < endIndex y)
                      then repeat_matcher m c fuel' y else None)
    end in
  match iterate with
  | Some r => Some r
  | None => c x
  end.

(** The matcher of a pattern, in continuation-passing style: [matcher s p x c]
    tries [p] at state [x] on subject [s] and hands every candidate end
    state to [c], backtracking when [c] fails. [Star] clears the captures of
    its body before each iteration. *)
Fixpoint matcher (s : list ascii) (p : Pattern) (x : MatchState)
    (c : Continuation) {struct p} : option MatchState :=
  match p with
  | Empty => c x
  | Chr a => char_matcher s (Ascii.eqb a) x c
  | Digit => char_matcher s is_digit x c
  | AnyChar => char_matcher s (fun ch => negb (is_line_terminator ch)) x c
  | Seq p q => matcher s p x (fun y => matcher s q y c)
  | Alt p q =>
      match matcher s p x c with
      | Some r => Some r
      | None => matcher s q x c
      end
  | Star p =>
      repeat_matcher
        (fun x' c' => matcher s p (clear_captures (groups p) x') c')
        c (length s - endIndex x) x
  | Group n p =>
      matcher s p x
        (fun y => c (set_capture n
                       (Some (substring_chars s (endIndex x) (endIndex y))) y))
  | Bol => if decide (endIndex x = 0) then c x else None
  | Eol => if decide (endIndex x = length s) then c x else None
  end.

(** The search loop of [exec]: try the pattern at [start], then at every
    later position; [fuel] bounds the positions left. *)
Fixpoint search (s : list ascii) (p : Pattern) (fuel start : nat)
  : option (nat * MatchState) :=
  match matcher s p (mkState start (replicate (ngroups p) None)) Some with
  | Some r => Some (start, r)
  | None =>
      match fuel with
      | 0 => None
      | S fuel' => search s p fuel' (S start)
      end
  end.

Definition pattern_exec (p : Pattern) (subject : string) : option MatchArray :=
  let s := list_ascii_of_string subject in
  match search s p (length s) 0 with
  | Some (start, r) =>
      Some (Some (substring_chars s start (endIndex r)) :: captures r)
  | None => None
  end.

(** The [RegExp] object of a pattern. *)
Definition regexp (p : Pattern) : RegExp := mkRegExp (pattern_exec p).

(** Declarative meaning of a pattern: [Matches s p i j] says that [p]
    matches the characters of [s] from position [i] up to position [j]
    (exclusive). [Bol] and [Eol] look at the position in the whole subject. *)
Inductive Matches (s : list ascii) : Pattern -> nat -> nat -> Prop :=
| MEmpty i : i <= length s -> Matches s Empty i i
| MChr a i : s !! i = Some a -> Matches s (Chr a) i (S i)
| MDigit a i : s !! i = Some a -> is_digit a = true -> Matches s Digit i (S i)
| MAnyChar a i :
    s !! i = Some a -> is_line_terminator a = false ->
    Matches s AnyChar i (S i)
| MSeq p q i j k :
    Matches s p i j -> Matches s q j k -> Matches s (Seq p q) i k
| MAltL p q i j : Matches s p i j -> Matches s (Alt p q) i j
| MAltR p q i j : Matches s q i j -> Matches s (Alt p q) i j
| MStarNil p i : i <= length s -> Matches s (Star p) i i
| MStarCons p i j k :
    Matches s p i j -> Matches s (Star p) j k -> Matches s (Star p) i k
| MGroup n p i j : Matches s p i j -> Matches s (Group n p) i j
| MBol : Matches s Bol 0 0
| MEol : Matches s Eol (length s) (length s).

(** The pattern matches the whole of the subject. *)
Definition matches_entirely (p : Pattern) (subject : string) : Prop :=
  let s := list_ascii_of_string subject in Matches s p 0 (length s).

(** The pattern matches some stretch of the subject. *)
Definition matches_somewhere (p : Pattern) (subject : string) : Prop :=
  let s := list_ascii_of_string subject in exists i j, Matches s p i j.

(** What the proofs ask of a matcher [m] for pattern [p] on subject [s]:
    every success goes through a state that [p] reaches, and [m] succeeds
    whenever [p] reaches a position where the continuation succeeds. *)
Definition sound_at (s : list ascii) (p : Pattern)
    (m : MatchState -> Continuation -> option MatchState) : Prop :=
  forall x c r, endIndex x <= length s -> m x c = Some r ->
    exists y, Matches s p (endIndex x) (endIndex y) /\
              length (captures y) = length (captures x) /\ c y = Some r.

Definition complete_at (s : list ascii) (p : Pattern)
    (m : MatchState -> Continuation -> option MatchState) : Prop :=
  forall i j, Matches s p i j ->
    forall x c, endIndex x = i ->
      (forall y, endIndex y = j -> is_Some (c y)) -> is_Some (m x c).

(** Whole-subject matching decided by the matcher: the continuation accepts
    only at the end of the subject. *)
Definition full_match (p : Pattern) (subject : string) : bool :=
  let s := list_ascii_of_string subject in
  match matcher s p (mkState 0 (replicate (ngroups p) None))
          (fun y => if decide (endIndex y = length s) then Some y else None)
  with
  | Some _ => true
  | None => false
  end.

(** ** Route metadata (the decorators) *)

(** [type Methods = "get" | "post" | "delete"] *)
Inductive Methods : Type := M_get | M_post | M_delete.

Definition Methods_string (m : Methods) : string :=
  match m with
  | M_get => "get"
  | M_post => "post"
  | M_delete => "delete"
  end.

(** [string | RegExp] *)
Inductive PathPattern : Type :=
| PString (s : string)
| PRegExp (re : RegExp).

Record ResponderDefinition : Type := mkDefinition {
  def_key : string;
  def_path : PathPattern;
  def_method : Methods
}.

Record CaptureGrouping : Type := mkGrouping {
  cg_index : nat;
  cg_required : bool
}.

(** [Array<CaptureGrouping | undefined>], indexed by parameter position. *)
Abbreviation CaptureGroupings := (list (option CaptureGrouping)).

(** What [Reflect.getMetadata] finds on a class prototype: the route list
    under [pathMetadataKey] (absent until the first route decorator runs)
    and, per property key, the values under [addressMetadataKey],
    [bodyMetadataKey], [protectMetadataKey] and [captureMetadataKey]. *)
Record Metadata : Type := mkMetadata {
  md_path : option (list ResponderDefinition);
  md_address : gmap string nat;
  md_body : gmap string nat;
  md_protect : gmap string bool;
  md_capture : gmap string (list (option CaptureGrouping))
}.

Definition no_metadata : Metadata := mkMetadata None ∅ ∅ ∅ ∅.

Definition address (target : Metadata) (propertyKey : string)
    (parameterIndex : nat) : Metadata :=
  mkMetadata (md_path target)
    (<[propertyKey := parameterIndex]> (md_address target))
    (md_body target) (md_protect target) (md_capture target).

Definition push_path (d : ResponderDefinition) (target : Metadata) : Metadata :=
  let existingPaths := default [] (md_path target) in
  mkMetadata (Some (existingPaths ++ [d]))
    (md_address target) (md_body target) (md_protect target)
    (md_capture target).

Definition GET (path : PathPattern) (target : Metadata) (propertyKey : string)
  : Metadata :=
  push_path (mkDefinition propertyKey path M_get) target.

Definition POST (path : PathPattern) (target : Metadata) (propertyKey : string)
  : Metadata :=
  push_path (mkDefinition propertyKey path M_post) target.

Definition DELETE (path : PathPattern) (target : Metadata)
    (propertyKey : string) : Metadata :=
  push_path (mkDefinition propertyKey path M_delete) target.

Definition protect (target : Metadata) (propertyKey : string) : Metadata :=
  mkMetadata (md_path target) (md_address target) (md_body target)
    (<[propertyKey := true]> (md_protect target)) (md_capture target).

Definition capture (index : nat) (required : bool) (target : Metadata)
    (propertyKey : string) (parameterIndex : nat) : Metadata :=
  let existingCaptures := default [] (md_capture target !! propertyKey) in
  mkMetadata (md_path target) (md_address target) (md_body target)
    (md_protect target)
    (<[propertyKey :=
         array_set existingCaptures parameterIndex
           (Some (mkGrouping index required))]> (md_capture target)).

Definition body (target : Metadata) (propertyKey : string)
    (parameterIndex : nat) : Metadata :=
  mkMetadata (md_path target) (md_address target)
    (<[propertyKey := parameterIndex]> (md_body target))
    (md_protect target) (md_capture target).

(** The route decorator of a definition, for replaying a list of
    declarations. *)
Definition declare (target : Metadata) (d : ResponderDefinition) : Metadata :=
  match def_method d with
  | M_get => GET (def_path d) target (def_key d)
  | M_post => POST (def_path d) target (def_key d)
  | M_delete => DELETE (def_path d) target (def_key d)
  end.

(** ** The registry *)

(** Injection keys are symbols; only their identity matters. *)
Definition Symbol : Type := nat.

Section Registry.

Context {TInjections TResponse : Type}.

Record Injection : Type := mkInjection {
  inj_key : Symbol;
  inj_value : TInjections
}.

(** A handler class, [ResponderConstructor<TInjections>]: the metadata found
    on the constructor itself (read by [init] under the injection keys), the
    metadata found on its prototype (written by the decorators) and its
    methods, which may use the constructor arguments of the instance. *)
Record ResponderConstructor : Type := mkConstructor {
  constructor_metadata : gmap Symbol nat;
  prototype_metadata : Metadata;
  prototype_methods :
    gmap string
      (list (option TInjections) -> list (option string) ->
       Completion TResponse)
}.

(** An object made by [new r(...args)]: [oid] is its identity. *)
Record Instance : Type := mkInstance {
  oid : nat;
  class_of : ResponderConstructor;
  constructor_args : list (option TInjections)
}.

(** [interface Responses<TResponse>], fields [400] and [401]. *)
Record Responses : Type := mkResponses {
  response400 : TResponse;
  response401 : TResponse
}.

(** [class Responder<TResponse>]: one route entry. *)
Record Responder : Type := mkResponder {
  this_responder : Instance;
  this_path : PathPattern;
  this_method : Methods;
  this_key : string;
  this_responses : Responses
}.

(** A call of a handler method, as seen from outside. *)
Inductive Event : Type :=
| Called (this : Instance) (propertyKey : string) (args : list (option string)).

(** [Responder.match] *)
Definition Responder_match (this : Responder) (path method : string) : bool :=
  String.eqb method (Methods_string (this_method this)) &&
  match this_path this with
  | PRegExp re => test re path
  | PString s => String.eqb s path
  end.

(** [Reflect.getMetadata(k, this.responder, this.key)]: the instance has no
    metadata of its own, the lookup reaches the prototype of its class. *)
Definition metadata_of (this : Responder) : Metadata :=
  prototype_metadata (class_of (this_responder this)).

(** Lines 199-202, the condition of the authorization gate. *)
Definition unauthorized (this : Responder) (address : option string) : bool :=
  default false (md_protect (metadata_of this) !! this_key this) &&
  falsy address.

(** Lines 205-221: the argument array after the address and the body were
    placed. *)
Definition bind_address_body (this : Responder) (address body : option string)
  : list (option string) :=
  let addressArgIndex := md_address (metadata_of this) !! this_key this in
  let args := [] in
  let args :=
    match addressArgIndex with
    | Some i => array_set args i address
    | None => args
    end in
  let bodyArgIndex := md_body (metadata_of this) !! this_key this in
  match bodyArgIndex with
  | Some i => array_set args i body
  | None => args
  end.

(** How the capture block (lines 222-241) ends: it falls through with the
    argument array, returns [responses[400]], or throws. *)
Inductive CaptureResult : Type :=
| Proceed (args : list (option string))
| Reject
| Fault (e : JSError).

(** The [for ... in] loop over the capture groupings, [index] being the
    position of the head of [captureGroupings] in the whole array. A hole
    is skipped; [matches![...]] on [null] throws a [TypeError]. *)
Fixpoint capture_loop (matches : option MatchArray)
    (captureGroupings : CaptureGroupings) (index : nat)
    (args : list (option string)) : CaptureResult :=
  match captureGroupings with
  | [] => Proceed args
  | None :: rest => capture_loop matches rest (S index) args
  | Some grouping :: rest =>
      match matches with
      | None => Fault TypeError
      | Some m =>
          if cg_required grouping && falsy (array_get m (cg_index grouping))
          then Reject
          else capture_loop matches rest (S index)
                 (array_set args index (array_get m (cg_index grouping)))
      end
  end.

(** Lines 222-241. *)
Definition bind_captures (this : Responder) (path : string)
    (args : list (option string)) : CaptureResult :=
  match this_path this with
  | PRegExp re =>
      match md_capture (metadata_of this) !! this_key this with
      | Some captureGroupings =>
          capture_loop (exec re path) captureGroupings 0 args
      | None => Proceed args
      end
  | PString _ => Proceed args
  end.

(** Line 242, [this.responder[this.key](...args)]: calling a property that
    is not a function throws a [TypeError]. *)
Definition apply_method (this : Responder) (args : list (option string))
  : list Event * Completion TResponse :=
  let inst := this_responder this in
  match prototype_methods (class_of inst) !! this_key this with
  | Some f =>
      ([Called inst (this_key this) args], f (constructor_args inst) args)
  | None => ([], Throw TypeError)
  end.

(** [Responder.call]: the handler calls made and the completion of the
    returned promise. *)
Definition Responder_call (this : Responder) (path : string)
    (address body : option string) : list Event * Completion TResponse :=
  if unauthorized this address
  then ([], Normal (response401 (this_responses this)))
  else
    match bind_captures this path (bind_address_body this address body) with
    | Proceed args => apply_method this args
    | Reject => ([], Normal (response400 (this_responses this)))
    | Fault e => ([], Throw e)
    end.

(** [class Responders<TInjections, TResponse>] *)
Record Responders : Type := mkResponders {
  responderEntries : list Responder;
  responderConstructors : list ResponderConstructor;
  registry_responses : Responses
}.

(** [new Responders(responses)] *)
Definition Responders_new (responses : Responses) : Responders :=
  mkResponders [] [] responses.

(** [Responders.get]: [Array.prototype.find]. *)
Definition Responders_get (this : Responders) (path method : string)
  : option Responder :=
  List.find (fun r => Responder_match r path method) (responderEntries this).

(** [Responders.register] *)
Definition Responders_register (this : Responders) (responder : ResponderConstructor)
  : Responders :=
  mkResponders (responderEntries this)
    (responderConstructors this ++ [responder]) (registry_responses this).

(** Lines 155-160, the constructor arguments of class [r]. *)
Definition injected_args (injections : list Injection) (r : ResponderConstructor)
  : list (option TInjections) :=
  foldl (fun args v =>
           match constructor_metadata r !! inj_key v with
           | Some i => array_set args i (Some (inj_value v))
           | None => args
           end) [] injections.

(** The entries pushed for one instance (line 168). *)
Definition entries_of (responses : Responses) (responder : Instance)
    (paths : list ResponderDefinition) : list Responder :=
  map (fun p => mkResponder responder (def_path p) (def_method p) (def_key p)
                  responses) paths.

(** The [forEach] of [init] over the constructors still to visit. [heap] is
    the identity of the next object to be allocated. When the route list of
    a class is [undefined], [paths.map] throws; the entries pushed before
    stay in place. *)
Fixpoint init_forEach (injections : list Injection)
    (rs : list ResponderConstructor) (this : Responders) (heap : nat)
  : Completion unit * Responders * nat :=
  match rs with
  | [] => (Normal tt, this, heap)
  | r :: rest =>
      let args := injected_args injections r in
      let responder := mkInstance heap r args in
      match md_path (prototype_metadata r) with
      | None => (Throw TypeError, this, S heap)
      | Some paths =>
          init_forEach injections rest
            (mkResponders
               (responderEntries this ++
                entries_of (registry_responses this) responder paths)
               (responderConstructors this) (registry_responses this))
            (S heap)
      end
  end.

(** [Responders.init] *)
Definition Responders_init (this : Responders) (injections : list Injection)
    (heap : nat) : Completion unit * Responders * nat :=
  init_forEach injections (responderConstructors this) this heap.

(** ** Vocabulary of the statements *)

(** The descriptor an entry was built from. *)
Definition descriptor_of (e : Responder) : ResponderDefinition :=
  mkDefinition (this_key e) (this_path e) (this_method e).

(** Steps 2 to 4 of [call], what remains once the gate is passed. *)
Definition call_past_gate (this : Responder) (path : string)
    (address body : option string) : list Event * Completion TResponse :=
  match bind_captures this path (bind_address_body this address body) with
  | Proceed args => apply_method this args
  | Reject => ([], Normal (response400 (this_responses this)))
  | Fault e => ([], Throw e)
  end.

(** Position [i] of the handler method is bound to a capture group. *)
Definition capture_bound (this : Responder) (i : nat) : Prop :=
  exists re groupings g,
    this_path this = PRegExp re /\
    md_capture (metadata_of this) !! this_key this = Some groupings /\
    groupings !! i = Some (Some g).

(** The handler method of the entry. *)
Definition handler_of (this : Responder) :=
  prototype_methods (class_of (this_responder this)) !! this_key this.

(** The routes declared by a class. *)
Definition declared_paths (r : ResponderConstructor) : list ResponderDefinition :=
  default [] (md_path (prototype_metadata r)).

(** Every class of the list went through a route decorator. *)
Definition all_routed (rs : list ResponderConstructor) : Prop :=
  Forall (fun r => is_Some (md_path (prototype_metadata r))) rs.

(** Identity of the instance behind each entry. *)
Definition instance_ids (entries : list Responder) : list nat :=
  map (fun e => oid (this_responder e)) entries.

End Registry.

(** An address that is [undefined] or the empty string. *)
Definition absent_or_empty (v : option string) : Prop :=
  v = None \/ v = Some "".

(** The test of line 233 on a match array: the binding is required and its
    group is absent or empty. *)
Definition capture_fails (m : MatchArray) (g : CaptureGrouping) : bool :=
  cg_required g && falsy (array_get m (cg_index g)).

Arguments Injection : clear implicits.
Arguments ResponderConstructor : clear implicits.
Arguments Instance : clear implicits.
Arguments Responses : clear implicits.
Arguments Responder : clear implicits.
Arguments Responders : clear implicits.
Arguments Event : clear implicits.

(** ** Sample handler classes *)

(** [/\/items\/(\d+)/] *)
Definition items_pattern : Pattern :=
  Seq (lit "/items/") (Group 1 (Plus Digit)).

(** [/^\/u\/(\d+)?\/(\d+)?$/] *)
Definition users_pattern : Pattern :=
  Seq Bol
    (Seq (lit "/u/")
       (Seq (Opt (Group 1 (Plus Digit)))
          (Seq (lit "/") (Seq (Opt (Group 2 (Plus Digit))) Eol)))).

(** [/who/] followed by group 1, a possibly empty run of digits. *)
Definition who_pattern : Pattern := Seq (lit "/who/") (Group 1 (Star Digit)).

(** The sample handlers answer with a rendering of the arguments they
    received. *)
Definition render (args : list (option string)) : string :=
  String.concat "," (map (default "undefined") args).

Definition echo (_ : list (option string)) (args : list (option string))
  : Completion string :=
  Normal (render args).

(** <<
    class Items {
      @GET(/\/items\/(\d+)/)   getItem(@capture(1, true) id) {...}
      @GET("/items")           listItems() {...}
      @protect @POST("/login") login(@body b, @address a) {...}
      @GET(/\/items\/(\d+)/)   strict(@capture(2, true) x) {...}
      @GET(/\/items\/(\d+)/)   lenient(@capture(2) x) {...}
    }
    >> *)
Definition Items_metadata : Metadata :=
  let t := no_metadata in
  let t := capture 1 true t "getItem" 0 in
  let t := GET (PRegExp (regexp items_pattern)) t "getItem" in
  let t := GET (PString "/items") t "listItems" in
  let t := address t "login" 1 in
  let t := body t "login" 0 in
  let t := POST (PString "/login") t "login" in
  let t := protect t "login" in
  let t := capture 2 true t "strict" 0 in
  let t := GET (PRegExp (regexp items_pattern)) t "strict" in
  let t := capture 2 false t "lenient" 0 in
  GET (PRegExp (regexp items_pattern)) t "lenient".

Definition Items : ResponderConstructor string string :=
  mkConstructor ∅ Items_metadata
    (<["getItem" := echo]> (<["listItems" := echo]> (<["login" := echo]>
      (<["strict" := echo]> (<["lenient" := echo]> ∅))))).

(** <<
    class Users {
      @GET(/^\/u\/(\d+)?\/(\d+)?$/)  pair(@capture(1) a, @capture(2, true) b) {...}
      @protect @DELETE(/\/items\/(\d+)/)  remove(@capture(1, true) id) {...}
      @protect @POST(/^\/u\/(\d+)?\/(\d+)?$/)  secure(@capture(1, true) a) {...}
      @GET(who_pattern)  who(@address @capture(1) a, @body b) {...}
    }
    >> *)
Definition Users_metadata : Metadata :=
  let t := no_metadata in
  let t := capture 2 true t "pair" 1 in
  let t := capture 1 false t "pair" 0 in
  let t := GET (PRegExp (regexp users_pattern)) t "pair" in
  let t := capture 1 true t "remove" 0 in
  let t := DELETE (PRegExp (regexp items_pattern)) t "remove" in
  let t := protect t "remove" in
  let t := capture 1 true t "secure" 0 in
  let t := POST (PRegExp (regexp users_pattern)) t "secure" in
  let t := protect t "secure" in
  let t := body t "who" 1 in
  let t := capture 1 false t "who" 0 in
  let t := address t "who" 0 in
  GET (PRegExp (regexp who_pattern)) t "who".

Definition Users : ResponderConstructor string string :=
  mkConstructor (<[7 := 1]> ∅) Users_metadata
    (<["pair" := echo]> (<["remove" := echo]> (<["secure" := echo]>
      (<["who" := echo]> ∅)))).

(** A class without any route decorator. *)
Definition Bare : ResponderConstructor string string :=
  mkConstructor ∅ no_metadata ∅.

Definition sample_responses : Responses string :=
  mkResponses "400" "401".

Definition Items_instance : Instance string string := mkInstance 0 Items [].

Definition sample_entry (inst : Instance string string) (p : Pattern)
    (m : Methods) (k : string) : Responder string string :=
  mkResponder inst (PRegExp (regexp p)) m k sample_responses.

Definition entry_getItem := sample_entry Items_instance items_pattern M_get "getItem".
Definition entry_strict := sample_entry Items_instance items_pattern M_get "strict".
Definition entry_lenient := sample_entry Items_instance items_pattern M_get "lenient".
Definition entry_login : Responder string string :=
  mkResponder Items_instance (PString "/login") M_post "login" sample_responses.

Definition Users_instance : Instance string string :=
  mkInstance 1 Users [None; Some "db"].

Definition entry_pair := sample_entry Users_instance users_pattern M_get "pair".
Definition entry_remove := sample_entry Users_instance items_pattern M_delete "remove".
Definition entry_secure := sample_entry Users_instance users_pattern M_post "secure".
Definition entry_who := sample_entry Users_instance who_pattern M_get "who".

(** The registry with [Items] and [Users] registered in that order. *)
Definition sample_registry : Responders string string :=
  Responders_register
    (Responders_register (Responders_new sample_responses) Items) Users.

Definition sample_injections : list (Injection string) :=
  [mkInjection 7 "db"; mkInjection 9 "unused"].

(** The registry after [init]. *)
Definition sample_initialised : Responders string string :=
  (Responders_init sample_registry sample_injections 0).1.2.

(** A registry with a class without routes between [Items] and [Users]. *)
Definition broken_registry : Responders string string :=
  Responders_register
    (Responders_register
       (Responders_register (Responders_new sample_responses) Items) Bare)
    Users.

(** <<
    class Reports {
      @GET("/late")            late(a, b, @address who) {...}
      @GET(/\/items\/(\d+)/)   crash(@capture(1, true) id) { throw ... }
    }
    >> *)
Definition Reports_metadata : Metadata :=
  let t := no_metadata in
  let t := address t "late" 2 in
  let t := GET (PString "/late") t "late" in
  let t := capture 1 true t "crash" 0 in
  GET (PRegExp (regexp items_pattern)) t "crash".

Definition boom (_ : list (option string)) (_ : list (option string))
  : Completion string :=
  Throw (UserError "boom").

Definition Reports : ResponderConstructor string string :=
  mkConstructor ∅ Reports_metadata
    (<["late" := echo]> (<["crash" := boom]> ∅)).

Definition Reports_instance : Instance string string := mkInstance 0 Reports [].

Definition entry_late : Responder string string :=
  mkResponder Reports_instance (PString "/late") M_get "late" sample_responses.

Definition entry_crash := sample_entry Reports_instance items_pattern M_get "crash".

Definition reports_initialised : Responders string string :=
  (Responders_init
     (Responders_register (Responders_new sample_responses) Reports) [] 0).1.2.

(** * Properties *)

(** ** The pattern engine against the declarative semantics *)

Section Engine.

Variable s : list ascii.

Lemma Matches_bounds p i j : Matches s p i j -> i <= j <= length s.
Proof.
  induction 1; try lia.
  all: match goal with
       | H : s !! _ = Some _ |- _ => apply lookup_lt_Some in H; lia
       end.
Qed.

Lemma endIndex_clear_captures ns x :
  endIndex (clear_captures ns x) = endIndex x.
Proof. induction ns as [|n ns IH]; simpl; auto. Qed.

Lemma length_clear_captures ns x :
  length (captures (clear_captures ns x)) = length (captures x).
Proof.
  induction ns as [|n ns IH]; simpl; auto. now rewrite length_insert.
Qed.

(** A star that matched a non-empty stretch starts with a non-empty
    iteration. *)
Lemma Matches_Star_inv p i j :
  Matches s (Star p) i j ->
  i = j \/ exists k, i < k /\ Matches s p i k /\ Matches s (Star p) k j.
Proof.
  intros H. remember (Star p) as sp eqn:E.
  induction H; try discriminate; inversion E; subst.
  - now left.
  - destruct (decide (i = j)) as [->|Hne].
    + now apply IHMatches2.
    + right. exists j. split; [|now split].
      apply Matches_bounds in H. lia.
Qed.

Lemma char_matcher_sound f x c r :
  char_matcher s f x c = Some r ->
  exists a, s !! endIndex x = Some a /\ f a = true /\ c (advance x) = Some r.
Proof.
  unfold char_matcher. destruct (s !! endIndex x) as [a|]; [|discriminate].
  destruct (f a) eqn:Hf; [|discriminate]. eauto.
Qed.

Lemma char_matcher_complete f x c a :
  s !! endIndex x = Some a -> f a = true ->
  is_Some (c (advance x)) -> is_Some (char_matcher s f x c).
Proof. unfold char_matcher. intros -> ->. auto. Qed.

Lemma repeat_matcher_sound p m c :
  sound_at s p m ->
  forall fuel x r, endIndex x <= length s ->
    repeat_matcher m c fuel x = Some r ->
    exists y, Matches s (Star p) (endIndex x) (endIndex y) /\
              length (captures y) = length (captures x) /\ c y = Some r.
Proof.
  intros Hm. induction fuel as [|fuel IH]; intros x r Hx; simpl.
  - intros Hc. exists x. split; [now constructor | now split].
  - destruct (m x _) as [r'|] eqn:Hit.
    + intros [= ->]. apply Hm in Hit as (y & Hy & Hl & Hc); [|exact Hx].
      destruct (decide (endIndex x < endIndex y)); [|discriminate].
      apply IH in Hc as (z & Hz & Hl' & Hc).
      * exists z. split; [econstructor; eassumption|].
        split; [congruence | exact Hc].
      * apply Matches_bounds in Hy. lia.
    + intros Hc. exists x. split; [now constructor | now split].
Qed.

Lemma repeat_matcher_complete p m c j :
  complete_at s p m ->
  (forall y, endIndex y = j -> is_Some (c y)) ->
  forall fuel x, length s - endIndex x <= fuel ->
    Matches s (Star p) (endIndex x) j ->
    is_Some (repeat_matcher m c fuel x).
Proof.
  intros Hm Hc. induction fuel as [|fuel IH]; intros x Hfuel HM.
  - apply Matches_Star_inv in HM as [E|(k & Hk & Hp & _)].
    + simpl. now apply Hc.
    + apply Matches_bounds in Hp. lia.
  - apply Matches_Star_inv in HM as [E|(k & Hk & Hp & Hs)].
    + simpl. destruct (m x _); [eauto | now apply Hc].
    + simpl.
      assert (Hit : is_Some (m x (fun y =>
                 if decide (endIndex x < endIndex y)
                 then repeat_matcher m c fuel y else None))).
      { eapply Hm; [exact Hp | reflexivity |].
        intros y Hy. rewrite Hy. destruct (decide (endIndex x < k)); [|lia].
        apply IH; [lia | now rewrite Hy]. }
      destruct Hit as [r ->]. eauto.
Qed.

Lemma matcher_sound p : sound_at s p (matcher s p).
Proof.
  induction p as [|a| | |p IHp q IHq|p IHp q IHq|p IHp|n p IHp| |];
    intros x c r Hx; simpl.
  - intros Hc. exists x. split; [now constructor | now split].
  - intros (b & Hb & Hf & Hc)%char_matcher_sound.
    apply Ascii.eqb_eq in Hf as <-.
    exists (advance x). split; [now constructor | now split].
  - intros (b & Hb & Hf & Hc)%char_matcher_sound.
    exists (advance x). split; [eapply MDigit; eassumption | now split].
  - intros (b & Hb & Hf & Hc)%char_matcher_sound.
    apply negb_true_iff in Hf.
    exists (advance x). split; [eapply MAnyChar; eassumption | now split].
  - intros (y & Hy & Hl & Hq)%IHp; [|exact Hx].
    apply IHq in Hq as (z & Hz & Hl' & Hc).
    + exists z. split; [econstructor; eassumption|].
      split; [congruence | exact Hc].
    + apply Matches_bounds in Hy. lia.
  - destruct (matcher s p x c) as [r'|] eqn:Hl.
    + intros [= ->]. apply IHp in Hl as (y & Hy & Hl & Hc); [|exact Hx].
      exists y. split; [now apply MAltL | now split].
    + intros (y & Hy & Hl' & Hc)%IHq; [|exact Hx].
      exists y. split; [now apply MAltR | now split].
  - apply (repeat_matcher_sound p); [|exact Hx].
    intros x' c' r' Hx' H'. apply IHp in H'.
    + now rewrite endIndex_clear_captures, length_clear_captures in H'.
    + now rewrite endIndex_clear_captures.
  - intros (y & Hy & Hl & Hc)%IHp; [|exact Hx].
    eexists. split; [|split; [|exact Hc]]; simpl.
    + now constructor.
    + now rewrite length_insert.
  - destruct (decide (endIndex x = 0)) as [e|]; [|discriminate].
    intros Hc. exists x. split; [|now split]. rewrite e. constructor.
  - destruct (decide (endIndex x = length s)) as [E|]; [|discriminate].
    intros Hc. exists x. split; [|now split]. rewrite E. constructor.
Qed.

Lemma matcher_complete p : complete_at s p (matcher s p).
Proof.
  induction p as [|a| | |p IHp q IHq|p IHp q IHq|p IHp|n p IHp| |];
    intros i j HM x c Hx Hc; simpl.
  - inversion HM; subst. now apply Hc.
  - inversion HM; subst.
    eapply char_matcher_complete; [eassumption | now apply Ascii.eqb_eq |].
    now apply Hc.
  - inversion HM; subst.
    eapply char_matcher_complete; [eassumption | assumption |].
    now apply Hc.
  - inversion HM; subst.
    eapply char_matcher_complete; [eassumption | now apply negb_true_iff |].
    now apply Hc.
  - inversion HM as [| | | |? ? ? k ? Hp Hq| | | | | | |]; subst.
    eapply IHp; [exact Hp | reflexivity |].
    intros y Hy. eapply IHq; [exact Hq | exact Hy | exact Hc].
  - inversion HM as [| | | | |? ? ? ? Hp|? ? ? ? Hq| | | | |]; subst.
    + destruct (IHp _ _ Hp x c eq_refl Hc) as [r ->]. eauto.
    + destruct (matcher s p x c); [eauto|].
      eapply IHq; [exact Hq | reflexivity | exact Hc].
  - apply (repeat_matcher_complete p _ c j); [|exact Hc|lia|now subst].
    intros i' j' HM' x' c' Hx' Hc'. eapply IHp; [exact HM'| |exact Hc'].
    now rewrite endIndex_clear_captures.
  - inversion HM; subst. eapply IHp; [eassumption | reflexivity |].
    intros y Hy. now apply Hc.
  - inversion HM; subst. destruct (decide (endIndex x = 0)); [|congruence].
    now apply Hc.
  - inversion HM; subst.
    destruct (decide (endIndex x = length s)); [|congruence].
    now apply Hc.
Qed.

End Engine.

(** The search loop finds a match exactly when the pattern matches at some
    position from [start] on. *)
Lemma search_sound s p fuel start i r :
  start + fuel <= length s ->
  search s p fuel start = Some (i, r) ->
  start <= i /\ Matches s p i (endIndex r) /\
  length (captures r) = ngroups p.
Proof.
  revert start. induction fuel as [|fuel IH]; intros start Hlen; simpl.
  - destruct (matcher s p _ Some) as [r'|] eqn:Hm; [|discriminate].
    intros [= <- <-]. apply matcher_sound in Hm as (y & Hy & Hl & [= <-]).
    + split; [lia | split; [exact Hy | simpl in Hl; now rewrite Hl, length_replicate]].
    + simpl. lia.
  - destruct (matcher s p _ Some) as [r'|] eqn:Hm.
    + intros [= <- <-].
      apply matcher_sound in Hm as (y & Hy & Hl & [= <-]).
      * split; [lia | split; [exact Hy | simpl in Hl; now rewrite Hl, length_replicate]].
      * simpl. lia.
    + intros H. apply IH in H; [|lia]. split; [lia | tauto].
Qed.

Lemma search_complete s p fuel start i j :
  Matches s p i j -> start <= i <= start + fuel ->
  is_Some (search s p fuel start).
Proof.
  intros HM. revert start. induction fuel as [|fuel IH]; intros start Hi; simpl.
  - assert (start = i) as -> by lia.
    destruct (matcher_complete s p i j HM
                (mkState i (replicate (ngroups p) None)) Some eq_refl)
      as [r ->]; eauto.
  - destruct (matcher s p _ Some) as [r|] eqn:Hm; [eauto|].
    destruct (decide (start = i)) as [->|Hne].
    + destruct (matcher_complete s p i j HM
                  (mkState i (replicate (ngroups p) None)) Some eq_refl)
        as [r Hr]; [eauto | congruence].
    + apply IH. lia.
Qed.

Lemma pattern_exec_matches p subject :
  is_Some (pattern_exec p subject) <-> matches_somewhere p subject.
Proof.
  unfold pattern_exec, matches_somewhere. simpl.
  set (s := list_ascii_of_string subject). split.
  - destruct (search s p (length s) 0) as [[i r]|] eqn:Hs.
    + intros _. apply search_sound in Hs as (_ & HM & _); [eauto | lia].
    + intros [? [=]].
  - intros (i & j & HM).
    destruct (search_complete s p (length s) 0 i j HM) as [[i' r] ->]; [|eauto].
    apply Matches_bounds in HM. lia.
Qed.

(** The match array has one slot for the matched text and one per capture
    group of the pattern: an index past [ngroups p] reads as [undefined]. *)
Lemma pattern_exec_length p subject m :
  pattern_exec p subject = Some m -> length m = S (ngroups p).
Proof.
  unfold pattern_exec. simpl.
  set (s := list_ascii_of_string subject).
  destruct (search s p (length s) 0) as [[i r]|] eqn:Hs; [|discriminate].
  intros [= <-]. apply search_sound in Hs as (_ & _ & Hl); [|lia].
  simpl. now rewrite Hl.
Qed.

(** [test] on the [RegExp] of a pattern is a search: it holds exactly when
    the pattern matches some stretch of the subject. *)
Lemma test_regexp p subject :
  test (regexp p) subject = true <-> matches_somewhere p subject.
Proof.
  rewrite <- pattern_exec_matches. unfold test, regexp. simpl.
  destruct (pattern_exec p subject); split; eauto; try discriminate.
  intros [? [=]].
Qed.

Lemma full_match_spec p subject :
  full_match p subject = true <-> matches_entirely p subject.
Proof.
  unfold full_match, matches_entirely. simpl.
  set (s := list_ascii_of_string subject). split.
  - destruct (matcher s p _ _) as [r|] eqn:Hm; [|discriminate].
    intros _. apply matcher_sound in Hm as (y & Hy & _ & Hc); [|simpl; lia].
    destruct (decide (endIndex y = length s)) as [E|]; [|discriminate].
    simpl in Hy. now rewrite E in Hy.
  - intros HM.
    destruct (matcher_complete s p 0 (length s) HM
                (mkState 0 (replicate (ngroups p) None))
                (fun y => if decide (endIndex y = length s) then Some y
                          else None) eq_refl) as [r ->]; [|reflexivity].
    intros y ->. destruct (decide (length s = length s)); [eauto | congruence].
Qed.

(** A pattern between [^] and [$] matches somewhere exactly when the pattern
    matches the whole subject. *)
Lemma anchored_matches p subject :
  matches_somewhere (Seq Bol (Seq p Eol)) subject <->
  matches_entirely p subject.
Proof.
  unfold matches_somewhere, matches_entirely. simpl.
  set (s := list_ascii_of_string subject). split.
  - intros (i & j & HM).
    inversion HM as [| | | |? ? ? k ? Hb Hr| | | | | | |]; subst.
    inversion Hb; subst.
    inversion Hr as [| | | |? ? ? k' ? Hp He| | | | | | |]; subst.
    inversion He; subst. exact Hp.
  - intros HM. exists 0, (length s).
    econstructor; [constructor|]. econstructor; [exact HM | constructor].
Qed.

(** ** Arrays *)

Lemma falsy_spec v : falsy v = true <-> absent_or_empty v.
Proof.
  unfold absent_or_empty. destruct v as [s|]; simpl.
  - rewrite String.eqb_eq. split; [intros ->; now right|].
    intros [[=]|[= ->]]. reflexivity.
  - split; [now left | reflexivity].
Qed.

Section Arrays.

Context {A : Type}.
Implicit Types (a : list (option A)) (v : option A).

Lemma array_set_lookup a i v : array_set a i v !! i = Some v.
Proof.
  unfold array_set. destruct (decide (i < length a)) as [Hlt|Hge].
  - now apply list_lookup_insert_eq.
  - rewrite lookup_app_r by lia. rewrite lookup_app_r.
    + rewrite length_replicate. now replace (i - length a - (i - length a)) with 0 by lia.
    + rewrite length_replicate. lia.
Qed.

(** A position that is filled keeps its value when another index is set. *)
Lemma array_set_lookup_other a i j v w :
  i <> j -> a !! j = Some w -> array_set a i v !! j = Some w.
Proof.
  intros Hne Hj. unfold array_set. destruct (decide (i < length a)).
  - now rewrite list_lookup_insert_ne.
  - now apply lookup_app_l_Some.
Qed.

Lemma array_get_out_of_range a i : length a <= i -> array_get a i = None.
Proof. intros H. unfold array_get. now rewrite lookup_ge_None_2. Qed.

End Arrays.

(** ** [Array.prototype.find] *)

Lemma find_first {A : Type} (f : A -> bool) (l : list A) (x : A) :
  List.find f l = Some x <->
  exists before after, l = before ++ x :: after /\
    Forall (fun y => f y = false) before /\ f x = true.
Proof.
  induction l as [|y l IH]; simpl.
  - split; [discriminate|]. intros ([|? ?] & ? & [=] & _).
  - destruct (f y) eqn:Hy.
    + split.
      * intros [= ->]. now exists [], l.
      * intros ([|z before] & after & E & Hall & Hx); simplify_eq/=; [done|].
        apply Forall_cons in Hall as [Hz _]. congruence.
    + rewrite IH. split.
      * intros (before & after & -> & Hall & Hx).
        exists (y :: before), after. repeat split; auto.
      * intros ([|z before] & after & E & Hall & Hx); simplify_eq/=.
        -- congruence.
        -- apply Forall_cons in Hall as [_ Hall]. eauto.
Qed.

Lemma find_nothing {A : Type} (f : A -> bool) (l : list A) :
  List.find f l = None <-> Forall (fun y => f y = false) l.
Proof.
  induction l as [|y l IH]; simpl.
  - split; auto.
  - destruct (f y) eqn:Hy.
    + split; [discriminate|]. intros [? _]%Forall_cons. congruence.
    + rewrite IH. split; [now constructor | now intros [_ ?]%Forall_cons].
Qed.

Section Dispatch.

Context {TInjections TResponse : Type}.
Implicit Types (this e : Responder TInjections TResponse).
Implicit Types (registry : Responders TInjections TResponse).

Lemma Responder_match_spec this path method :
  Responder_match this path method = true <->
  method = Methods_string (this_method this) /\
  match this_path this with
  | PString s => s = path
  | PRegExp re => test re path = true
  end.
Proof.
  unfold Responder_match. rewrite andb_true_iff, String.eqb_eq.
  destruct (this_path this); [rewrite String.eqb_eq|]; reflexivity.
Qed.

(** C1. [find] ([Responders.get]) scans the entry list in build order: it
    returns an entry exactly when that entry matches and no entry before it
    does, and it returns nothing exactly when no entry matches. An entry
    matches when the request method equals its verb and, for a literal
    pattern, the request path equals the pattern (for a [RegExp], when
    [test] holds). *)
Theorem C1_get_returns_first_match registry path method :
  (forall e,
     Responders_get registry path method = Some e <->
     exists before after,
       responderEntries registry = before ++ e :: after /\
       Forall (fun e' => Responder_match e' path method = false) before /\
       Responder_match e path method = true) /\
  (Responders_get registry path method = None <->
   Forall (fun e => Responder_match e path method = false)
     (responderEntries registry)) /\
  (forall e,
     Responder_match e path method = true <->
     method = Methods_string (this_method e) /\
     match this_path e with
     | PString s => s = path
     | PRegExp re => test re path = true
     end).
Proof.
  split; [|split].
  - intros e. apply (find_first (fun r => Responder_match r path method)).
  - apply (find_nothing (fun r => Responder_match r path method)).
  - intros e. apply Responder_match_spec.
Qed.

(** ** The steps of [call] *)

Lemma Responder_call_unauthorized this path address body :
  unauthorized this address = true ->
  Responder_call this path address body =
  ([], Normal (response401 (this_responses this))).
Proof. unfold Responder_call. now intros ->. Qed.

Lemma Responder_call_authorized this path address body :
  unauthorized this address = false ->
  Responder_call this path address body =
  call_past_gate this path address body.
Proof. unfold Responder_call, call_past_gate. now intros ->. Qed.

Lemma apply_method_handler this args f :
  handler_of this = Some f ->
  apply_method this args =
  ([Called (this_responder this) (this_key this) args],
   f (constructor_args (this_responder this)) args).
Proof. unfold handler_of, apply_method. now intros ->. Qed.

(** Without any handler call, [call_past_gate] can only have returned
    [responses[400]] or thrown. *)
Lemma call_past_gate_silent this path address body v :
  call_past_gate this path address body = ([], Normal v) ->
  v = response400 (this_responses this).
Proof.
  unfold call_past_gate.
  destruct (bind_captures _ _ _) as [args| |e]; [|congruence|discriminate].
  unfold apply_method. destruct (_ !! _); discriminate.
Qed.

(** A handler call in the trace of [call]: the gate was passed and the
    capture block fell through with the arguments of the call. *)
Lemma Responder_call_Called this path address body inst k args :
  Called inst k args ∈ (Responder_call this path address body).1 ->
  unauthorized this address = false /\
  bind_captures this path (bind_address_body this address body) =
  Proceed args.
Proof.
  unfold Responder_call. destruct (unauthorized this address).
  { simpl. intros []%elem_of_nil. }
  destruct (bind_captures _ _ _) as [args'| |e]; simpl;
    try (intros []%elem_of_nil).
  unfold apply_method. destruct (_ !! _); simpl; [|intros []%elem_of_nil].
  intros [= _ _ ->]%list_elem_of_singleton. auto.
Qed.

End Dispatch.

(** ** The capture loop *)

Lemma capture_fails_spec m g :
  capture_fails m g = true <->
  cg_required g = true /\ absent_or_empty (array_get m (cg_index g)).
Proof. unfold capture_fails. now rewrite andb_true_iff, falsy_spec. Qed.

Lemma capture_passes_spec m g :
  capture_fails m g = false <->
  (cg_required g = true -> ~ absent_or_empty (array_get m (cg_index g))).
Proof.
  rewrite <- not_true_iff_false, capture_fails_spec. split.
  - intros H Hr Ha. apply H. now split.
  - intros H [Hr Ha]. now apply H.
Qed.

(** The loop stops with [responses[400]] at the first failing binding,
    whatever comes after it. *)
Lemma capture_loop_reject m before g after index args :
  Forall (fun o => forall b, o = Some b -> capture_fails m b = false) before ->
  capture_fails m g = true ->
  capture_loop (Some m) (before ++ Some g :: after) index args = Reject.
Proof.
  intros Hbefore Hg. revert index args.
  induction Hbefore as [|o before Ho _ IH]; intros index args; simpl.
  - unfold capture_fails in Hg. now rewrite Hg.
  - destruct o as [b|]; [|apply IH].
    specialize (Ho b eq_refl). unfold capture_fails in Ho. rewrite Ho. apply IH.
Qed.

(** With [null] for the match array the first binding throws. *)
Lemma capture_loop_null groupings i g index args :
  groupings !! i = Some (Some g) ->
  capture_loop None groupings index args = Fault TypeError.
Proof.
  revert i index args.
  induction groupings as [|o groupings IH]; intros i index args Hi.
  - discriminate.
  - destruct o as [b|]; [reflexivity|].
    destruct i as [|i]; [discriminate|]. simpl. eapply IH, Hi.
Qed.

(** With a match array the loop never throws. *)
Lemma capture_loop_no_fault m groupings index args e :
  capture_loop (Some m) groupings index args <> Fault e.
Proof.
  revert index args.
  induction groupings as [|[b|] groupings IH]; intros index args; simpl.
  - discriminate.
  - destruct (_ && _); [discriminate | apply IH].
  - apply IH.
Qed.

(** When the loop falls through, a position it did not bind keeps its
    value. *)
Lemma capture_loop_keeps matches groupings index args args' j v :
  capture_loop matches groupings index args = Proceed args' ->
  args !! j = Some v ->
  (index <= j -> forall g, groupings !! (j - index) <> Some (Some g)) ->
  args' !! j = Some v.
Proof.
  revert index args.
  induction groupings as [|[b|] groupings IH]; intros index args; simpl.
  - now intros [= <-].
  - destruct matches as [m|]; [|discriminate].
    destruct (_ && _); [discriminate|].
    intros Hloop Hj Hfree. eapply IH; [exact Hloop| |].
    + apply array_set_lookup_other; [|exact Hj].
      intros ->. apply (Hfree (le_n _) b).
      now replace (j - j) with 0 by lia.
    + intros Hle g Hg. apply (Hfree ltac:(lia) g).
      now replace (j - index) with (S (j - S index)) by lia.
  - intros Hloop Hj Hfree. eapply IH; [exact Hloop|exact Hj|].
    intros Hle g Hg. apply (Hfree ltac:(lia) g).
    now replace (j - index) with (S (j - S index)) by lia.
Qed.

(** When the loop falls through there was a match array (as soon as there
    is a binding), no binding failed and every bound position holds its
    capture group. *)
Lemma capture_loop_Proceed matches groupings index args args' k g :
  capture_loop matches groupings index args = Proceed args' ->
  groupings !! k = Some (Some g) ->
  exists m, matches = Some m /\ capture_fails m g = false /\
            args' !! (index + k) = Some (array_get m (cg_index g)).
Proof.
  revert index args k.
  induction groupings as [|[b|] groupings IH]; intros index args k; simpl.
  - discriminate.
  - destruct matches as [m|]; [|discriminate].
    destruct (_ && _) eqn:Hb; [discriminate|].
    intros Hloop Hk. destruct k as [|k]; simpl in Hk.
    + injection Hk as ->. exists m. split; [reflexivity|]. split; [exact Hb|].
      replace (index + 0) with index by lia.
      eapply capture_loop_keeps; [exact Hloop|apply array_set_lookup|lia].
    + replace (index + S k) with (S index + k) by lia. eapply IH; eassumption.
  - intros Hloop Hk. destruct k as [|k]; [discriminate|]. simpl in Hk.
    replace (index + S k) with (S index + k) by lia. eapply IH; eassumption.
Qed.

(** When no binding fails the loop falls through. *)
Lemma capture_loop_passes m groupings index args :
  (forall k b, groupings !! k = Some (Some b) -> capture_fails m b = false) ->
  exists args', capture_loop (Some m) groupings index args = Proceed args'.
Proof.
  revert index args.
  induction groupings as [|[b|] groupings IH]; intros index args Hall; simpl.
  - eauto.
  - pose proof (Hall 0 b eq_refl) as Hb. unfold capture_fails in Hb.
    rewrite Hb. apply IH. intros k b'. apply (Hall (S k)).
  - apply IH. intros k b'. apply (Hall (S k)).
Qed.

Section Invocation.

Context {TInjections TResponse : Type}.
Implicit Types (this : Responder TInjections TResponse).

Lemma unauthorized_spec this address :
  md_protect (metadata_of this) !! this_key this = Some true ->
  unauthorized this address = true <-> absent_or_empty address.
Proof. unfold unauthorized. intros ->. simpl. apply falsy_spec. Qed.

(** C2. For an entry whose handler method is protected: the authorization
    gate fires exactly when the supplied address is absent or empty; when it
    fires, [invoke] ([Responder.call]) returns the configured 401 response
    as a value and calls no handler, whatever the path and the body; with a
    non-empty address [invoke] proceeds past the gate, to steps 2 to 4. When
    the configured 400 and 401 responses differ, returning the 401 response
    without a handler call is therefore equivalent to the address being
    absent or empty. *)
Theorem C2_authorization_gate this path address body :
  md_protect (metadata_of this) !! this_key this = Some true ->
  (unauthorized this address = true <-> absent_or_empty address) /\
  (absent_or_empty address ->
   Responder_call this path address body =
   ([], Normal (response401 (this_responses this)))) /\
  (~ absent_or_empty address ->
   Responder_call this path address body =
   call_past_gate this path address body) /\
  (response400 (this_responses this) <> response401 (this_responses this) ->
   (Responder_call this path address body =
    ([], Normal (response401 (this_responses this))) <->
    absent_or_empty address)).
Proof.
  intros Hp. pose proof (unauthorized_spec this address Hp) as Hgate.
  split; [exact Hgate|]. split; [|split].
  - intros Ha. apply Responder_call_unauthorized. now apply Hgate.
  - intros Ha. apply Responder_call_authorized.
    apply not_true_iff_false. now rewrite Hgate.
  - intros Hne. split.
    + intros Hcall. destruct (unauthorized this address) eqn:Hu.
      * now apply Hgate.
      * rewrite Responder_call_authorized in Hcall by exact Hu.
        apply call_past_gate_silent in Hcall. congruence.
    + intros Ha. apply Responder_call_unauthorized. now apply Hgate.
Qed.

(** The capture block at the first failing binding. *)
Lemma first_failing_rejects this path re groupings m i g :
  this_path this = PRegExp re ->
  md_capture (metadata_of this) !! this_key this = Some groupings ->
  exec re path = Some m ->
  groupings !! i = Some (Some g) ->
  cg_required g = true ->
  absent_or_empty (array_get m (cg_index g)) ->
  (forall j b, j < i -> groupings !! j = Some (Some b) ->
     cg_required b = true -> ~ absent_or_empty (array_get m (cg_index b))) ->
  (forall further args,
     capture_loop (Some m) (take i groupings ++ Some g :: further) 0 args
     = Reject) /\
  (forall args, bind_captures this path args = Reject).
Proof.
  intros Hpath Hmd Hexec Hi Hreq Hempty Hearlier.
  assert (Hbefore :
    Forall (fun o => forall b, o = Some b -> capture_fails m b = false)
      (take i groupings)).
  { apply Forall_lookup_2. intros j o Hj b ->.
    apply lookup_take_Some in Hj as [Hj Hlt].
    apply capture_passes_spec. now apply (Hearlier j). }
  assert (Hg : capture_fails m g = true) by now apply capture_fails_spec.
  assert (Hloop : forall further args,
    capture_loop (Some m) (take i groupings ++ Some g :: further) 0 args
    = Reject).
  { intros. now apply capture_loop_reject. }
  split; [exact Hloop|].
  intros args. unfold bind_captures. rewrite Hpath, Hmd, Hexec.
  rewrite <- (take_drop_middle groupings i (Some g)) by exact Hi.
  apply Hloop.
Qed.

Lemma call_rejected this path address body :
  unauthorized this address = false ->
  (forall args, bind_captures this path args = Reject) ->
  Responder_call this path address body =
  ([], Normal (response400 (this_responses this))).
Proof.
  intros Hu Hblock. rewrite Responder_call_authorized by exact Hu.
  unfold call_past_gate. now rewrite Hblock.
Qed.

(** C3, amended. For a regex-typed entry with capture bindings and a match
    result [m]: let binding [i] be the first one, in parameter-index order,
    that is required and whose group is absent or empty in [m]. Then the
    capture block returns the 400 response, for any argument array and
    whatever bindings follow position [i]; a call that is past the
    authorization gate returns the configured 400 response and calls no
    handler, and a call stopped at the gate returns the configured 401
    response instead. *)
Theorem C3_first_failing_required_capture
    this path address body re groupings m i g :
  this_path this = PRegExp re ->
  md_capture (metadata_of this) !! this_key this = Some groupings ->
  exec re path = Some m ->
  groupings !! i = Some (Some g) ->
  cg_required g = true ->
  absent_or_empty (array_get m (cg_index g)) ->
  (forall j b, j < i -> groupings !! j = Some (Some b) ->
     cg_required b = true -> ~ absent_or_empty (array_get m (cg_index b))) ->
  (forall args, bind_captures this path args = Reject) /\
  (forall further args,
     capture_loop (Some m) (take (S i) groupings ++ further) 0 args = Reject) /\
  (unauthorized this address = false ->
   Responder_call this path address body =
   ([], Normal (response400 (this_responses this)))) /\
  (unauthorized this address = true ->
   Responder_call this path address body =
   ([], Normal (response401 (this_responses this)))).
Proof.
  intros Hpath Hmd Hexec Hi Hreq Hempty Hearlier.
  destruct (first_failing_rejects this path re groupings m i g)
    as [Hloop Hblock]; try assumption.
  split; [exact Hblock|]. split; [|split].
  - intros further args. rewrite (take_S_r _ _ _ Hi), <- app_assoc. apply Hloop.
  - intros Hu. now apply call_rejected.
  - apply Responder_call_unauthorized.
Qed.

(** C10, amended. For a regex-typed entry with at least one capture binding
    and a path that the pattern does not match ([exec] returns [null]): the
    capture block throws a [TypeError] at the first binding, so a call that
    is past the authorization gate throws, without any handler call,
    instead of returning a response; a call stopped at the gate returns the
    configured 401 response. *)
Theorem C10_unmatched_path_faults this path address body re groupings i g :
  this_path this = PRegExp re ->
  md_capture (metadata_of this) !! this_key this = Some groupings ->
  groupings !! i = Some (Some g) ->
  exec re path = None ->
  (forall args, bind_captures this path args = Fault TypeError) /\
  (unauthorized this address = false ->
   Responder_call this path address body = ([], Throw TypeError)) /\
  (unauthorized this address = true ->
   Responder_call this path address body =
   ([], Normal (response401 (this_responses this)))).
Proof.
  intros Hpath Hmd Hi Hexec.
  assert (Hblock : forall args, bind_captures this path args = Fault TypeError).
  { intros args. unfold bind_captures. rewrite Hpath, Hmd, Hexec.
    eapply capture_loop_null, Hi. }
  split; [exact Hblock|]. split.
  - intros Hu. rewrite Responder_call_authorized by exact Hu.
    unfold call_past_gate. now rewrite Hblock.
  - apply Responder_call_unauthorized.
Qed.

(** A call that is past the gate, with a match array in which no required
    binding fails, calls the handler; the arguments hold every capture
    group at its bound position. *)
Lemma call_reaches_handler this path address body re groupings m f :
  this_path this = PRegExp re ->
  md_capture (metadata_of this) !! this_key this = Some groupings ->
  exec re path = Some m ->
  unauthorized this address = false ->
  (forall j b, groupings !! j = Some (Some b) ->
     cg_required b = true -> ~ absent_or_empty (array_get m (cg_index b))) ->
  handler_of this = Some f ->
  exists args,
    bind_captures this path (bind_address_body this address body) =
    Proceed args /\
    Responder_call this path address body =
    ([Called (this_responder this) (this_key this) args],
     f (constructor_args (this_responder this)) args) /\
    forall k b, groupings !! k = Some (Some b) ->
      args !! k = Some (array_get m (cg_index b)).
Proof.
  intros Hpath Hmd Hexec Hu Hall Hf.
  destruct (capture_loop_passes m groupings 0
              (bind_address_body this address body)) as [args Hloop].
  { intros k b Hk. apply capture_passes_spec. now apply (Hall k). }
  assert (Hblock :
    bind_captures this path (bind_address_body this address body)
    = Proceed args).
  { unfold bind_captures. now rewrite Hpath, Hmd, Hexec. }
  exists args. split; [exact Hblock|]. split.
  - rewrite Responder_call_authorized by exact Hu.
    unfold call_past_gate. rewrite Hblock. now apply apply_method_handler.
  - intros k b Hk.
    destruct (capture_loop_Proceed _ _ _ _ _ _ _ Hloop Hk)
      as (m' & [= <-] & _ & Hargs).
    exact Hargs.
Qed.

(** C5, amended. For a regex-typed entry with an optional capture binding
    at parameter position [i] whose group is absent or empty in the match
    result: provided the call is past the authorization gate and no required
    binding of the entry has an absent or empty group, [invoke] calls the
    handler method, and the argument at position [i] is that absent or
    empty value. *)
Theorem C5_optional_capture_still_invokes
    this path address body re groupings m i g f :
  this_path this = PRegExp re ->
  md_capture (metadata_of this) !! this_key this = Some groupings ->
  exec re path = Some m ->
  groupings !! i = Some (Some g) ->
  cg_required g = false ->
  absent_or_empty (array_get m (cg_index g)) ->
  unauthorized this address = false ->
  (forall j b, groupings !! j = Some (Some b) ->
     cg_required b = true -> ~ absent_or_empty (array_get m (cg_index b))) ->
  handler_of this = Some f ->
  exists args v,
    Responder_call this path address body =
    ([Called (this_responder this) (this_key this) args],
     f (constructor_args (this_responder this)) args) /\
    args !! i = Some v /\ v = array_get m (cg_index g) /\ absent_or_empty v.
Proof.
  intros Hpath Hmd Hexec Hi Hopt Hempty Hu Hall Hf.
  destruct (call_reaches_handler this path address body re groupings m f)
    as (args & _ & Hcall & Hargs); try assumption.
  exists args, (array_get m (cg_index g)).
  split; [exact Hcall|]. split; [now apply Hargs|]. now split.
Qed.

(** Step 2 places the address first and the body second. *)
Lemma bind_address_body_lookup this address body :
  (forall bi, md_body (metadata_of this) !! this_key this = Some bi ->
     bind_address_body this address body !! bi = Some body) /\
  (forall ai, md_address (metadata_of this) !! this_key this = Some ai ->
     md_body (metadata_of this) !! this_key this <> Some ai ->
     bind_address_body this address body !! ai = Some address).
Proof.
  unfold bind_address_body. split.
  - intros bi ->. apply array_set_lookup.
  - intros ai -> Hb.
    destruct (md_body (metadata_of this) !! this_key this) as [bi|].
    + apply array_set_lookup_other; [congruence | apply array_set_lookup].
    + apply array_set_lookup.
Qed.

(** C6. For an entry whose handler method has an Address binding at
    position [ai] and a Body binding at a different position [bi]: the
    argument array assembled by [invoke] holds the supplied address at [ai]
    and the supplied body at [bi]; for a literal route past the gate this
    array is what the handler is called with; whenever the handler is
    called, positions [ai] and [bi] hold the address and the body unless a
    capture binding targets them; and the two decorators commute, so the
    order of declaration does not matter. *)
Theorem C6_address_and_body_positions this path addr payload ai bi :
  md_address (metadata_of this) !! this_key this = Some ai ->
  md_body (metadata_of this) !! this_key this = Some bi ->
  ai <> bi ->
  (bind_address_body this addr payload !! ai = Some addr /\
   bind_address_body this addr payload !! bi = Some payload) /\
  (forall s f,
     this_path this = PString s ->
     unauthorized this addr = false ->
     handler_of this = Some f ->
     Responder_call this path addr payload =
     ([Called (this_responder this) (this_key this)
         (bind_address_body this addr payload)],
      f (constructor_args (this_responder this))
        (bind_address_body this addr payload))) /\
  (forall inst k args,
     Called inst k args ∈ (Responder_call this path addr payload).1 ->
     (~ capture_bound this ai -> args !! ai = Some addr) /\
     (~ capture_bound this bi -> args !! bi = Some payload)) /\
  (forall target k,
     address (body target k bi) k ai = body (address target k ai) k bi /\
     md_address (address (body target k bi) k ai) !! k = Some ai /\
     md_body (address (body target k bi) k ai) !! k = Some bi).
Proof.
  intros Ha Hb Hne.
  destruct (bind_address_body_lookup this addr payload) as [Hbody Haddr].
  assert (Hplaced :
    bind_address_body this addr payload !! ai = Some addr /\
    bind_address_body this addr payload !! bi = Some payload).
  { split; [apply Haddr; congruence | now apply Hbody]. }
  split; [exact Hplaced|]. split; [|split].
  - intros s f Hpath Hu Hf. rewrite Responder_call_authorized by exact Hu.
    unfold call_past_gate, bind_captures. rewrite Hpath.
    now apply apply_method_handler.
  - intros inst k args [_ Hblock]%Responder_call_Called.
    assert (Hkeep : forall j v,
      bind_address_body this addr payload !! j = Some v ->
      ~ capture_bound this j -> args !! j = Some v).
    { intros j v Hj Hfree. unfold bind_captures in Hblock.
      destruct (this_path this) as [s|re] eqn:Hpath; [congruence|].
      destruct (md_capture _ !! _) as [groupings|] eqn:Hmd; [|congruence].
      eapply capture_loop_keeps; [exact Hblock | exact Hj |].
      intros _ g Hg. apply Hfree. exists re, groupings, g.
      now rewrite Nat.sub_0_r in Hg. }
    destruct Hplaced. split; now apply Hkeep.
  - intros target k. split; [reflexivity|]. simpl.
    now rewrite !lookup_insert_eq.
Qed.

(** C7. For a regex-typed entry with a capture binding at the parameter
    position [i] of the Address or Body binding: step 2 places the address
    or the body at [i]; whenever the handler is called, the argument at [i]
    is the capture group of the match result instead; and the handler is
    called as soon as the call is past the gate, the pattern matches and no
    required binding fails. *)
Theorem C7_capture_overwrites_address_or_body
    this path address body re groupings i g :
  this_path this = PRegExp re ->
  md_capture (metadata_of this) !! this_key this = Some groupings ->
  groupings !! i = Some (Some g) ->
  md_address (metadata_of this) !! this_key this = Some i \/
  md_body (metadata_of this) !! this_key this = Some i ->
  (bind_address_body this address body !! i = Some address \/
   bind_address_body this address body !! i = Some body) /\
  (forall inst k args,
     Called inst k args ∈ (Responder_call this path address body).1 ->
     exists m, exec re path = Some m /\
               args !! i = Some (array_get m (cg_index g))) /\
  (forall m f,
     exec re path = Some m ->
     unauthorized this address = false ->
     (forall j b, groupings !! j = Some (Some b) ->
        cg_required b = true ->
        ~ absent_or_empty (array_get m (cg_index b))) ->
     handler_of this = Some f ->
     exists args,
       Responder_call this path address body =
       ([Called (this_responder this) (this_key this) args],
        f (constructor_args (this_responder this)) args) /\
       args !! i = Some (array_get m (cg_index g))).
Proof.
  intros Hpath Hmd Hi Hbound. split; [|split].
  - destruct (bind_address_body_lookup this address body) as [Hbody Haddr].
    destruct (decide (md_body (metadata_of this) !! this_key this = Some i))
      as [Hb|Hb]; [right; now apply Hbody|].
    destruct Hbound as [Ha|]; [left; now apply Haddr | contradiction].
  - intros inst k args [_ Hblock]%Responder_call_Called.
    unfold bind_captures in Hblock. rewrite Hpath, Hmd in Hblock.
    destruct (capture_loop_Proceed _ _ _ _ _ _ _ Hblock Hi)
      as (m & Hm & _ & Hargs).
    exists m. split; [exact Hm | exact Hargs].
  - intros m f Hexec Hu Hall Hf.
    destruct (call_reaches_handler this path address body re groupings m f)
      as (args & _ & Hcall & Hargs); try assumption.
    exists args. split; [exact Hcall | now apply Hargs].
Qed.

End Invocation.

(** ** Pattern-typed routes *)

Section Patterns.

Context {TInjections TResponse : Type}.
Implicit Types (this : Responder TInjections TResponse).

(** C4, amended. For a regex-typed entry, [find] treats the entry as
    matching exactly when the request method equals its verb and the
    pattern matches some stretch of the path: [RegExp.test] is a search.
    The entry matches only paths that the pattern matches entirely when the
    pattern itself is anchored with [^] and [$]. *)
Theorem C4_regexp_route_matches_by_search this path method p :
  this_path this = PRegExp (regexp p) ->
  (Responder_match this path method = true <->
   method = Methods_string (this_method this) /\ matches_somewhere p path) /\
  (forall q, p = Seq Bol (Seq q Eol) ->
     (Responder_match this path method = true <->
      method = Methods_string (this_method this) /\
      matches_entirely q path)).
Proof.
  intros Hpath.
  assert (H : Responder_match this path method = true <->
              method = Methods_string (this_method this) /\
              matches_somewhere p path).
  { rewrite Responder_match_spec, Hpath. now rewrite test_regexp. }
  split; [exact H|]. intros q ->. now rewrite H, anchored_matches.
Qed.

(** A capture binding whose group index exceeds the number of groups of
    the pattern reads [undefined] from the match array. *)
Lemma missing_group_is_undefined p path m index :
  exec (regexp p) path = Some m -> ngroups p < index ->
  array_get m index = None.
Proof.
  simpl. intros Hm%pattern_exec_length Hlt.
  apply array_get_out_of_range. lia.
Qed.

End Patterns.

(** ** Initialisation *)

Section Initialisation.

Context {TInjections TResponse : Type}.
Implicit Types (registry : Responders TInjections TResponse).
Implicit Types (r : ResponderConstructor TInjections TResponse).
Implicit Types (rs : list (ResponderConstructor TInjections TResponse)).

Lemma descriptor_of_entries_of (responses : Responses TResponse)
    (inst : Instance TInjections TResponse) paths :
  map descriptor_of (entries_of responses inst paths) = paths.
Proof.
  unfold entries_of. rewrite map_map. simpl.
  induction paths as [|[k p m] paths IH]; simpl; [reflexivity|].
  now rewrite IH.
Qed.

Lemma instance_ids_entries_of (responses : Responses TResponse)
    (inst : Instance TInjections TResponse) paths :
  instance_ids (entries_of responses inst paths) =
  replicate (length paths) (oid inst).
Proof.
  unfold instance_ids, entries_of. rewrite map_map. simpl.
  induction paths as [|d paths IH]; simpl; [reflexivity|]. now rewrite IH.
Qed.

(** [init] over classes that all went through a route decorator: it
    completes, allocates one instance per class and pushes the entries of
    each class, class after class. *)
Lemma init_forEach_routed injections rs registry heap :
  all_routed rs ->
  exists registry',
    init_forEach injections rs registry heap =
    (Normal tt, registry', heap + length rs) /\
    responderConstructors registry' = responderConstructors registry /\
    registry_responses registry' = registry_responses registry /\
    exists pushed,
      responderEntries registry' = responderEntries registry ++ pushed /\
      map descriptor_of pushed = concat (map declared_paths rs) /\
      instance_ids pushed =
      concat (imap (fun k r => replicate (length (declared_paths r)) (heap + k))
                rs).
Proof.
  intros Hall. revert registry heap.
  induction Hall as [|r rs [paths Hr] _ IH]; intros registry heap; simpl.
  - exists registry. rewrite Nat.add_0_r. repeat split.
    exists []. now rewrite app_nil_r.
  - rewrite Hr.
    destruct (IH (mkResponders
                    (responderEntries registry ++
                     entries_of (registry_responses registry)
                       (mkInstance heap r (injected_args injections r)) paths)
                    (responderConstructors registry)
                    (registry_responses registry)) (S heap))
      as (registry' & Hinit & Hctors & Hresp & pushed & Hentries & Hdesc & Hids).
    exists registry'. simpl in *.
    split; [rewrite Hinit; f_equal; lia|].
    split; [exact Hctors|]. split; [exact Hresp|].
    eexists. split; [rewrite Hentries, <- app_assoc; reflexivity|].
    split.
    + rewrite map_app, descriptor_of_entries_of, Hdesc.
      unfold declared_paths at 2. now rewrite Hr.
    + unfold instance_ids in *. rewrite map_app.
      fold (instance_ids (entries_of (registry_responses registry)
              (mkInstance heap r (injected_args injections r)) paths)).
      rewrite instance_ids_entries_of, Hids. simpl.
      replace (declared_paths r) with paths
        by (unfold declared_paths; now rewrite Hr).
      rewrite Nat.add_0_r. f_equal. f_equal.
      apply imap_ext. intros k r' _. simpl. f_equal. lia.
Qed.

(** [init] throws as soon as one registered class has no route list. *)
Lemma init_forEach_unrouted injections rs registry heap :
  Exists (fun r => md_path (prototype_metadata r) = None) rs ->
  (init_forEach injections rs registry heap).1.1 = Throw TypeError.
Proof.
  intros Hex. revert registry heap.
  induction rs as [|r rs IH]; intros registry heap.
  - now apply Exists_nil in Hex.
  - simpl. destruct (md_path (prototype_metadata r)) as [paths|] eqn:Hr.
    + apply IH. apply Exists_cons in Hex as [Hex|Hex]; [congruence|exact Hex].
    + reflexivity.
Qed.

(** Route decorators append: replaying declarations [ds] on a class leaves
    its route list extended by [ds], in that order. *)
Lemma declare_order target ds :
  default [] (md_path (foldl declare target ds)) =
  default [] (md_path target) ++ ds.
Proof.
  revert target. induction ds as [|d ds IH]; intros target; simpl.
  - now rewrite app_nil_r.
  - rewrite IH. destruct d as [k p []]; simpl; now rewrite <- app_assoc.
Qed.

(** The instances allocated by one run of [init] are those numbered from
    [heap] up to [heap + length rs]. *)
Lemma allocated_ids_range (n : ResponderConstructor TInjections TResponse -> nat)
    rs heap :
  Forall (fun id => heap <= id < heap + length rs)
    (concat (imap (fun k r => replicate (n r) (heap + k)) rs)).
Proof.
  revert heap. induction rs as [|r rs IH]; intros heap; simpl.
  - constructor.
  - apply Forall_app. split.
    + apply Forall_replicate. lia.
    + rewrite (imap_ext _ (fun k r => replicate (n r) (S heap + k))).
      * eapply Forall_impl; [apply IH|]. simpl. intros id. lia.
      * intros k r' _. simpl. f_equal. lia.
Qed.

(** C9. When [init] completes (every registered class has a route list):
    the entries it pushes carry the descriptors of the registered classes,
    in declaration order within a class and class after class in
    registration order, each class with an instance of its own; the
    decorators append, so the route list of a class is in declaration
    order; a second [init] pushes the same descriptors again, behind new
    instances; and a class registered twice yields its entries twice,
    behind two different instances. *)
Theorem C9_init_builds_entries_in_order registry injections heap :
  all_routed (responderConstructors registry) ->
  (exists registry' pushed,
     Responders_init registry injections heap =
     (Normal tt, registry', heap + length (responderConstructors registry)) /\
     responderConstructors registry' = responderConstructors registry /\
     responderEntries registry' = responderEntries registry ++ pushed /\
     map descriptor_of pushed =
     concat (map declared_paths (responderConstructors registry)) /\
     instance_ids pushed =
     concat (imap (fun k r => replicate (length (declared_paths r)) (heap + k))
               (responderConstructors registry)) /\
     exists registry'' again,
       Responders_init registry' injections
         (heap + length (responderConstructors registry)) =
       (Normal tt, registry'',
        heap + length (responderConstructors registry)
        + length (responderConstructors registry)) /\
       responderEntries registry'' =
       responderEntries registry ++ pushed ++ again /\
       map descriptor_of again = map descriptor_of pushed /\
       Forall (fun id => id < heap + length (responderConstructors registry))
         (instance_ids pushed) /\
       Forall (fun id => heap + length (responderConstructors registry) <= id)
         (instance_ids again)) /\
  (forall target ds,
     default [] (md_path (foldl declare target ds)) =
     default [] (md_path target) ++ ds) /\
  (forall responses r,
     is_Some (md_path (prototype_metadata r)) ->
     exists registry2,
       Responders_init
         (Responders_register
            (Responders_register (Responders_new responses) r) r)
         injections heap = (Normal tt, registry2, heap + 2) /\
       map descriptor_of (responderEntries registry2) =
       declared_paths r ++ declared_paths r /\
       instance_ids (responderEntries registry2) =
       replicate (length (declared_paths r)) heap ++
       replicate (length (declared_paths r)) (heap + 1)).
Proof.
  intros Hall. split; [|split].
  - destruct (init_forEach_routed injections _ registry heap Hall)
      as (registry' & Hinit & Hctors & Hresp & pushed & Hentries & Hdesc & Hids).
    exists registry', pushed. repeat (split; [assumption|]).
    assert (Hall' : all_routed (responderConstructors registry'))
      by now rewrite Hctors.
    destruct (init_forEach_routed injections _ registry'
                (heap + length (responderConstructors registry)) Hall')
      as (registry'' & Hinit' & _ & _ & again & Hentries' & Hdesc' & Hids').
    exists registry'', again. unfold Responders_init.
    rewrite Hctors in *. split; [exact Hinit'|].
    split; [now rewrite Hentries', Hentries, <- app_assoc|].
    split; [congruence|]. split.
    + rewrite Hids. eapply Forall_impl; [apply allocated_ids_range|].
      simpl. intros id. lia.
    + rewrite Hids'. eapply Forall_impl; [apply allocated_ids_range|].
      simpl. intros id. lia.
  - intros target ds. apply declare_order.
  - intros responses r Hr.
    destruct (init_forEach_routed injections [r; r]
                (Responders_register
                   (Responders_register (Responders_new responses) r) r) heap)
      as (registry2 & Hinit & _ & _ & pushed & Hentries & Hdesc & Hids).
    { repeat constructor; exact Hr. }
    exists registry2. split; [exact Hinit|].
    simpl in Hentries, Hdesc, Hids. rewrite Hentries.
    rewrite Hdesc, Hids, !app_nil_r, Nat.add_0_r. now split.
Qed.

(** C8, amended. [init] raises a fault ([TypeError]) when a registered
    class has no route metadata. A capture binding whose group index has no
    group in the pattern does not make [invoke] raise: when the pattern
    matches, the group reads as absent from the match result, the capture
    block never throws, and the call, like any other, ends with the 401
    response at the authorization gate, with the 400 response, or with a
    call of the handler method. Past the gate the binding is treated as any
    binding whose group is absent: a required one is answered with the 400
    response when no required binding before it fails, and an optional one
    lets the handler be called, with an absent value at its position, when
    no required binding of the entry fails. *)
Theorem C8_missing_metadata_faults_missing_group_does_not :
  (forall registry injections heap r,
     r ∈ responderConstructors registry ->
     md_path (prototype_metadata r) = None ->
     (Responders_init registry injections heap).1.1 = Throw TypeError) /\
  (forall (this : Responder TInjections TResponse) path address body
          p groupings m i g,
     this_path this = PRegExp (regexp p) ->
     md_capture (metadata_of this) !! this_key this = Some groupings ->
     groupings !! i = Some (Some g) ->
     ngroups p < cg_index g ->
     exec (regexp p) path = Some m ->
     array_get m (cg_index g) = None /\
     (forall args e, bind_captures this path args <> Fault e) /\
     (forall f, handler_of this = Some f ->
        (unauthorized this address = true /\
         Responder_call this path address body =
         ([], Normal (response401 (this_responses this)))) \/
        (unauthorized this address = false /\
         Responder_call this path address body =
         ([], Normal (response400 (this_responses this)))) \/
        (unauthorized this address = false /\
         exists args,
           Responder_call this path address body =
           ([Called (this_responder this) (this_key this) args],
            f (constructor_args (this_responder this)) args))) /\
     (cg_required g = true ->
      unauthorized this address = false ->
      (forall j b, j < i -> groupings !! j = Some (Some b) ->
         cg_required b = true ->
         ~ absent_or_empty (array_get m (cg_index b))) ->
      Responder_call this path address body =
      ([], Normal (response400 (this_responses this)))) /\
     (cg_required g = false ->
      unauthorized this address = false ->
      (forall j b, groupings !! j = Some (Some b) ->
         cg_required b = true ->
         ~ absent_or_empty (array_get m (cg_index b))) ->
      forall f, handler_of this = Some f ->
      exists args,
        Responder_call this path address body =
        ([Called (this_responder this) (this_key this) args],
         f (constructor_args (this_responder this)) args) /\
        args !! i = Some None)).
Proof.
  split.
  - intros registry injections heap r Hr Hnone.
    apply init_forEach_unrouted. apply Exists_exists. eauto.
  - intros this path address body p groupings m i g Hpath Hmd Hi Hlt Hexec.
    pose proof (missing_group_is_undefined p path m _ Hexec Hlt) as Hundef.
    assert (Hsafe : forall args e, bind_captures this path args <> Fault e).
    { intros args e. unfold bind_captures. rewrite Hpath, Hmd, Hexec.
      apply capture_loop_no_fault. }
    split; [exact Hundef|]. split; [exact Hsafe|]. split; [|split].
    + intros f Hf. destruct (unauthorized this address) eqn:Hu.
      * left. split; [reflexivity|]. now apply Responder_call_unauthorized.
      * right. rewrite Responder_call_authorized by exact Hu.
        unfold call_past_gate.
        destruct (bind_captures this path (bind_address_body this address body))
          as [args| |e] eqn:Hblock.
        -- right. split; [reflexivity|]. exists args.
           now apply apply_method_handler.
        -- left. now split.
        -- now apply Hsafe in Hblock.
    + intros Hreq Hu Hearlier. apply call_rejected; [exact Hu|].
      eapply first_failing_rejects; try eassumption.
      rewrite Hundef. now left.
    + intros Hopt Hu Hall f Hf.
      destruct (call_reaches_handler this path address body _ groupings m f
                  Hpath Hmd Hexec Hu Hall Hf) as (args & _ & Hcall & Hargs).
      exists args. split; [exact Hcall|]. rewrite <- Hundef. now apply Hargs.
Qed.

End Initialisation.

(** ** The sample classes *)

Lemma C1_get_returns_first_match_witness :
  this_key <$> Responders_get sample_initialised "/items/42" "get"
  = Some "getItem" /\
  exists before after,
    responderEntries sample_initialised
    = before ++ entry_getItem :: after /\
    Forall (fun e => Responder_match e "/items/42" "get" = false) before.
Proof.
  split; [vm_compute; reflexivity|].
  destruct (C1_get_returns_first_match sample_initialised "/items/42" "get")
    as [Hfirst _].
  destruct (proj1 (Hfirst entry_getItem)) as (before & after & E & Hall & _).
  - vm_compute. reflexivity.
  - eauto.
Defined.

Lemma C2_authorization_gate_witness :
  md_protect (metadata_of entry_login) !! "login" = Some true /\
  Responder_call entry_login "/login" None (Some "pw") = ([], Normal "401") /\
  Responder_call entry_login "/login" (Some "") (Some "pw")
  = ([], Normal "401") /\
  Responder_call entry_login "/login" (Some "alice") (Some "pw")
  = call_past_gate entry_login "/login" (Some "alice") (Some "pw").
Proof.
  assert (Hp : md_protect (metadata_of entry_login) !! "login" = Some true)
    by (vm_compute; reflexivity).
  split; [exact Hp|]. split; [|split].
  - destruct (C2_authorization_gate entry_login "/login" None (Some "pw") Hp)
      as (_ & Hgate & _).
    apply Hgate. now left.
  - destruct (C2_authorization_gate entry_login "/login" (Some "")
                (Some "pw") Hp) as (_ & Hgate & _).
    apply Hgate. now right.
  - destruct (C2_authorization_gate entry_login "/login" (Some "alice")
                (Some "pw") Hp) as (_ & _ & Hpast & _).
    apply Hpast. intros [[=]|[=]].
Defined.

Lemma C3_first_failing_required_capture_witness :
  exec (regexp users_pattern) "/u/3/" = Some [Some "/u/3/"; Some "3"; None] /\
  Responder_call entry_pair "/u/3/" None None = ([], Normal "400").
Proof.
  assert (Hexec : exec (regexp users_pattern) "/u/3/"
                  = Some [Some "/u/3/"; Some "3"; None])
    by (vm_compute; reflexivity).
  split; [exact Hexec|].
  destruct (C3_first_failing_required_capture entry_pair "/u/3/" None None
              (regexp users_pattern)
              [Some (mkGrouping 1 false); Some (mkGrouping 2 true)]
              [Some "/u/3/"; Some "3"; None] 1 (mkGrouping 2 true))
    as (_ & _ & Hcall & _).
  - reflexivity.
  - vm_compute. reflexivity.
  - exact Hexec.
  - reflexivity.
  - reflexivity.
  - left. reflexivity.
  - intros j b Hj Hb Hreq. destruct j as [|j]; [|lia].
    simpl in Hb. injection Hb as <-. discriminate.
  - apply Hcall. vm_compute. reflexivity.
Defined.

Lemma C3_counterexample :
  this_path entry_secure = PRegExp (regexp users_pattern) /\
  md_capture (metadata_of entry_secure) !! "secure"
  = Some [Some (mkGrouping 1 true)] /\
  exec (regexp users_pattern) "/u//" = Some [Some "/u//"; None; None] /\
  md_protect (metadata_of entry_secure) !! "secure" = Some true /\
  Responder_call entry_secure "/u//" None None = ([], Normal "401") /\
  response400 (this_responses entry_secure) = "400".
Proof. repeat split; vm_compute; reflexivity. Qed.

Lemma C4_counterexample :
  this_path entry_getItem = PRegExp (regexp items_pattern) /\
  Responder_match entry_getItem "/v2/items/42/edit" "get" = true /\
  this_key <$> Responders_get sample_initialised "/v2/items/42/edit" "get"
  = Some "getItem" /\
  ~ matches_entirely items_pattern "/v2/items/42/edit".
Proof.
  split; [reflexivity|]. split; [vm_compute; reflexivity|].
  split; [vm_compute; reflexivity|].
  rewrite <- full_match_spec. vm_compute. discriminate.
Qed.

Lemma C4_regexp_route_matches_by_search_witness :
  matches_somewhere items_pattern "/v2/items/42/edit".
Proof.
  destruct (C4_regexp_route_matches_by_search entry_getItem
              "/v2/items/42/edit" "get" items_pattern) as [Hsearch _].
  - reflexivity.
  - apply Hsearch. vm_compute. reflexivity.
Defined.

Lemma C5_counterexample :
  md_capture (metadata_of entry_pair) !! "pair"
  = Some [Some (mkGrouping 1 false); Some (mkGrouping 2 true)] /\
  exec (regexp users_pattern) "/u//" = Some [Some "/u//"; None; None] /\
  unauthorized entry_pair None = false /\
  handler_of entry_pair = Some echo /\
  Responder_call entry_pair "/u//" None None = ([], Normal "400").
Proof. repeat split; vm_compute; reflexivity. Qed.

Lemma C5_optional_capture_still_invokes_witness :
  exec (regexp users_pattern) "/u//7" = Some [Some "/u//7"; None; Some "7"] /\
  exists args v,
    Responder_call entry_pair "/u//7" None None
    = ([Called Users_instance "pair" args], Normal (render args)) /\
    args !! 0 = Some v /\ v = None /\ absent_or_empty v.
Proof.
  assert (Hexec : exec (regexp users_pattern) "/u//7"
                  = Some [Some "/u//7"; None; Some "7"])
    by (vm_compute; reflexivity).
  split; [exact Hexec|].
  apply (C5_optional_capture_still_invokes entry_pair "/u//7" None None
           (regexp users_pattern)
           [Some (mkGrouping 1 false); Some (mkGrouping 2 true)]
           [Some "/u//7"; None; Some "7"] 0 (mkGrouping 1 false) echo).
  - reflexivity.
  - vm_compute. reflexivity.
  - exact Hexec.
  - reflexivity.
  - reflexivity.
  - left. reflexivity.
  - vm_compute. reflexivity.
  - intros j b Hb Hreq.
    destruct j as [|[|j]]; simpl in Hb; try discriminate;
      injection Hb as <-; [discriminate|].
    intros [[=]|[=]].
  - vm_compute. reflexivity.
Defined.

Lemma C6_address_and_body_positions_witness :
  Responder_call entry_login "/login" (Some "alice") (Some "pw")
  = ([Called Items_instance "login" [Some "pw"; Some "alice"]],
     Normal "pw,alice") /\
  address (body no_metadata "login" 0) "login" 1
  = body (address no_metadata "login" 1) "login" 0.
Proof.
  destruct (C6_address_and_body_positions entry_login "/login"
              (Some "alice") (Some "pw") 1 0)
    as (_ & Hcall & _ & Horder).
  - vm_compute. reflexivity.
  - vm_compute. reflexivity.
  - lia.
  - split; [|apply Horder].
    apply (Hcall "/login" echo); vm_compute; reflexivity.
Defined.

Lemma C7_capture_overwrites_address_or_body_witness :
  bind_address_body entry_who (Some "alice") (Some "b")
  = [Some "alice"; Some "b"] /\
  exists args,
    Responder_call entry_who "/who/7" (Some "alice") (Some "b")
    = ([Called Users_instance "who" args], Normal (render args)) /\
    args !! 0 = Some (Some "7").
Proof.
  split; [vm_compute; reflexivity|].
  destruct (C7_capture_overwrites_address_or_body entry_who "/who/7"
              (Some "alice") (Some "b") (regexp who_pattern)
              [Some (mkGrouping 1 false)] 0 (mkGrouping 1 false))
    as (_ & _ & Hcall).
  - reflexivity.
  - vm_compute. reflexivity.
  - reflexivity.
  - left. vm_compute. reflexivity.
  - apply (Hcall [Some "/who/7"; Some "7"] echo).
    + vm_compute. reflexivity.
    + vm_compute. reflexivity.
    + intros j b Hb Hreq. destruct j as [|j]; simpl in Hb; [|discriminate].
      injection Hb as <-. discriminate.
    + vm_compute. reflexivity.
Defined.

Lemma C8_counterexample :
  ngroups items_pattern = 1 /\
  md_capture (metadata_of entry_strict) !! "strict"
  = Some [Some (mkGrouping 2 true)] /\
  exec (regexp items_pattern) "/items/42" = Some [Some "/items/42"; Some "42"] /\
  Responder_call entry_strict "/items/42" None None = ([], Normal "400") /\
  Responder_call entry_lenient "/items/42" None None
  = ([Called Items_instance "lenient" [None]], Normal "undefined").
Proof. repeat split; vm_compute; reflexivity. Qed.

Lemma C8_missing_metadata_faults_missing_group_does_not_witness :
  (Responders_init (Responders_register sample_registry Bare)
     sample_injections 0).1.1 = Throw TypeError /\
  Responder_call entry_strict "/items/42" None None = ([], Normal "400").
Proof.
  destruct (@C8_missing_metadata_faults_missing_group_does_not string string)
    as [Hinit Hgroup].
  split.
  - apply (Hinit (Responders_register sample_registry Bare)
             sample_injections 0 Bare).
    + simpl. repeat constructor.
    + reflexivity.
  - destruct (Hgroup entry_strict "/items/42" None None items_pattern
                [Some (mkGrouping 2 true)] [Some "/items/42"; Some "42"]
                0 (mkGrouping 2 true)) as (_ & _ & _ & Hreq & _).
    + reflexivity.
    + vm_compute. reflexivity.
    + reflexivity.
    + vm_compute. lia.
    + vm_compute. reflexivity.
    + apply Hreq; [reflexivity | vm_compute; reflexivity | lia].
Defined.

Lemma C9_init_builds_entries_in_order_witness :
  exists registry' pushed,
    Responders_init sample_registry sample_injections 0
    = (Normal tt, registry', 2) /\
    responderEntries registry' = pushed /\
    map def_key (map descriptor_of pushed)
    = ["getItem"; "listItems"; "login"; "strict"; "lenient";
       "pair"; "remove"; "secure"; "who"] /\
    instance_ids pushed = [0; 0; 0; 0; 0; 1; 1; 1; 1].
Proof.
  destruct (C9_init_builds_entries_in_order sample_registry
              sample_injections 0)
    as [(registry' & pushed & Hinit & _ & Hentries & Hdesc & Hids & _) _].
  - repeat constructor; vm_compute; eauto.
  - exists registry', pushed. split; [exact Hinit|].
    split; [exact Hentries|]. split.
    + rewrite Hdesc. vm_compute. reflexivity.
    + rewrite Hids. vm_compute. reflexivity.
Defined.

Lemma C10_unmatched_path_faults_witness :
  exec (regexp items_pattern) "/nothing" = None /\
  Responder_call entry_getItem "/nothing" None None = ([], Throw TypeError).
Proof.
  assert (Hexec : exec (regexp items_pattern) "/nothing" = None)
    by (vm_compute; reflexivity).
  split; [exact Hexec|].
  destruct (C10_unmatched_path_faults entry_getItem "/nothing" None None
              (regexp items_pattern) [Some (mkGrouping 1 true)] 0
              (mkGrouping 1 true)) as (_ & Hcall & _).
  - reflexivity.
  - vm_compute. reflexivity.
  - reflexivity.
  - exact Hexec.
  - apply Hcall. vm_compute. reflexivity.
Defined.

Lemma C10_counterexample :
  this_path entry_remove = PRegExp (regexp items_pattern) /\
  md_capture (metadata_of entry_remove) !! "remove"
  = Some [Some (mkGrouping 1 true)] /\
  exec (regexp items_pattern) "/nothing" = None /\
  md_protect (metadata_of entry_remove) !! "remove" = Some true /\
  Responder_call entry_remove "/nothing" None None = ([], Normal "401").
Proof. repeat split; vm_compute; reflexivity. Qed.

(** * Further properties of the decorators, the registry and the entries *)

(** ** Reading an array after a store *)

Section ArrayReads.

Context {A : Type}.
Implicit Types (a : list (option A)) (v : option A).

Lemma length_array_set a i v :
  length (array_set a i v) = max (length a) (S i).
Proof.
  unfold array_set. destruct (decide (i < length a)).
  - rewrite length_insert. lia.
  - rewrite !length_app, length_replicate. simpl. lia.
Qed.

(** [a[i] = v] changes what is read at [i] and nothing else; the holes it
    creates read as [undefined], like the positions past the end before. *)
Lemma array_get_array_set a i v j :
  array_get (array_set a i v) j = if decide (j = i) then v else array_get a j.
Proof.
  unfold array_get at 1. destruct (decide (j = i)) as [->|Hne].
  - now rewrite array_set_lookup.
  - unfold array_set, array_get. destruct (decide (i < length a)).
    + now rewrite list_lookup_insert_ne.
    + destruct (decide (j < length a)) as [Hj|Hj].
      * now rewrite lookup_app_l.
      * rewrite lookup_app_r by lia. rewrite (lookup_ge_None_2 a j) by lia.
        destruct (decide (j - length a < i - length a)) as [Hh|Hh].
        -- rewrite lookup_app_l by now rewrite length_replicate.
           now rewrite lookup_replicate_2.
        -- rewrite lookup_app_r by (rewrite length_replicate; lia).
           rewrite length_replicate.
           destruct (j - length a - (i - length a)) as [|d] eqn:E; [lia|].
           reflexivity.
Qed.

(** Two arrays of the same length that read the same everywhere are the
    same array. *)
Lemma array_ext a b :
  length a = length b -> (forall j, array_get a j = array_get b j) -> a = b.
Proof.
  intros Hlen Hget. apply list_eq. intros j. specialize (Hget j).
  unfold array_get in Hget.
  destruct (a !! j) as [x|] eqn:Ha, (b !! j) as [y|] eqn:Hb.
  - now subst.
  - apply lookup_lt_Some in Ha. apply lookup_ge_None in Hb. lia.
  - apply lookup_ge_None in Ha. apply lookup_lt_Some in Hb. lia.
  - reflexivity.
Qed.

Lemma array_set_twice a i v w :
  array_set (array_set a i v) i w = array_set a i w.
Proof.
  apply array_ext.
  - rewrite !length_array_set. lia.
  - intros j. rewrite !array_get_array_set. now destruct (decide (j = i)).
Qed.

End ArrayReads.

(** ** The parameter decorators *)

(** X1. [@capture(index, required)] on parameter [i] of method [k] records
    exactly that binding at position [i] of the capture groupings of [k];
    the bindings at the other positions of [k], the groupings of the other
    methods and every other kind of metadata are left as they were. A
    second [@capture] on the same parameter replaces the first. *)
Theorem capture_records_binding index required target k i :
  (exists groupings,
     md_capture (capture index required target k i) !! k = Some groupings /\
     groupings !! i = Some (Some (mkGrouping index required)) /\
     forall j, j <> i ->
       array_get groupings j =
       array_get (default [] (md_capture target !! k)) j) /\
  (forall k', k' <> k ->
     md_capture (capture index required target k i) !! k' =
     md_capture target !! k') /\
  (md_path (capture index required target k i) = md_path target /\
   md_address (capture index required target k i) = md_address target /\
   md_body (capture index required target k i) = md_body target /\
   md_protect (capture index required target k i) = md_protect target) /\
  (forall index' required',
     capture index' required' (capture index required target k i) k i =
     capture index' required' target k i).
Proof.
  split; [|split; [|split]].
  - eexists. simpl. rewrite lookup_insert_eq. split; [reflexivity|]. split.
    + apply array_set_lookup.
    + intros j Hj. rewrite array_get_array_set.
      destruct (decide (j = i)); [contradiction | reflexivity].
  - intros k' Hk'. simpl. now rewrite lookup_insert_ne.
  - repeat split.
  - intros index' required'. unfold capture. simpl.
    rewrite lookup_insert_eq, insert_insert_eq. simpl.
    now rewrite array_set_twice.
Qed.

(** ** More on the capture loop *)

(** A position without a capture binding reads after the loop as before. *)
Lemma capture_loop_unbound matches groupings index args args' j :
  capture_loop matches groupings index args = Proceed args' ->
  (index <= j -> forall g, groupings !! (j - index) <> Some (Some g)) ->
  array_get args' j = array_get args j.
Proof.
  revert index args.
  induction groupings as [|[b|] groupings IH]; intros index args; simpl.
  - now intros [= <-].
  - destruct matches as [m|]; [|discriminate].
    destruct (_ && _); [discriminate|].
    intros Hloop Hfree. rewrite (IH _ _ Hloop).
    + rewrite array_get_array_set.
      destruct (decide (j = index)) as [->|]; [|reflexivity].
      exfalso. apply (Hfree (le_n _) b). now rewrite Nat.sub_diag.
    + intros Hle g Hg. apply (Hfree ltac:(lia) g).
      now replace (j - index) with (S (j - S index)) by lia.
  - intros Hloop Hfree. apply (IH _ _ Hloop).
    intros Hle g Hg. apply (Hfree ltac:(lia) g).
    now replace (j - index) with (S (j - S index)) by lia.
Qed.

(** The only fault of the loop is the [TypeError] of a [null] match. *)
Lemma capture_loop_fault matches groupings index args e :
  capture_loop matches groupings index args = Fault e ->
  e = TypeError /\ matches = None.
Proof.
  revert index args.
  induction groupings as [|[b|] groupings IH]; intros index args; simpl.
  - discriminate.
  - destruct matches as [m|]; [|now intros [= <-]].
    destruct (_ && _); [discriminate | apply IH].
  - apply IH.
Qed.

(** How the loop ends does not depend on the argument array it fills. *)
Lemma capture_loop_same_ending matches groupings index1 index2 args1 args2 :
  match capture_loop matches groupings index1 args1,
        capture_loop matches groupings index2 args2 with
  | Proceed _, Proceed _ | Reject, Reject => True
  | Fault e1, Fault e2 => e1 = e2
  | _, _ => False
  end.
Proof.
  revert index1 index2 args1 args2.
  induction groupings as [|[b|] groupings IH];
    intros index1 index2 args1 args2; simpl.
  - exact I.
  - destruct matches as [m|]; [|reflexivity].
    destruct (_ && _); [exact I | apply IH].
  - apply IH.
Qed.

Section Entries.

Context {TInjections TResponse : Type}.
Implicit Types (this : Responder TInjections TResponse).
Implicit Types (registry : Responders TInjections TResponse).

Lemma bind_address_body_read this address body j :
  array_get (bind_address_body this address body) j =
  if decide (md_body (metadata_of this) !! this_key this = Some j) then body
  else if decide (md_address (metadata_of this) !! this_key this = Some j)
       then address else None.
Proof.
  unfold bind_address_body.
  destruct (md_address _ !! _) as [ai|], (md_body _ !! _) as [bi|];
    rewrite ?array_get_array_set; repeat case_decide;
    simplify_eq; try reflexivity; try congruence;
    unfold array_get; now rewrite ?lookup_nil.
Qed.

(** X2. The argument array built from the Address and Body bindings reads
    the body at the Body index, the address at the Address index unless the
    Body binding targets the same index (the body is stored last and wins),
    and [undefined] at every other position; its length is one more than
    the highest bound index, 0 without bindings. *)
Theorem address_body_array this address body :
  (forall j,
     array_get (bind_address_body this address body) j =
     if decide (md_body (metadata_of this) !! this_key this = Some j)
     then body
     else if decide (md_address (metadata_of this) !! this_key this = Some j)
          then address else None) /\
  length (bind_address_body this address body) =
  max (from_option S 0 (md_address (metadata_of this) !! this_key this))
      (from_option S 0 (md_body (metadata_of this) !! this_key this)).
Proof.
  split; [apply bind_address_body_read|].
  unfold bind_address_body.
  destruct (md_address _ !! _) as [ai|], (md_body _ !! _) as [bi|];
    rewrite ?length_array_set; simpl; lia.
Qed.

Lemma bind_captures_Proceed_unbound this path args args' j :
  bind_captures this path args = Proceed args' ->
  ~ capture_bound this j ->
  array_get args' j = array_get args j.
Proof.
  unfold bind_captures. intros Hblock Hfree.
  destruct (this_path this) as [s|re] eqn:Hpath; [congruence|].
  destruct (md_capture _ !! _) as [groupings|] eqn:Hmd; [|congruence].
  eapply capture_loop_unbound; [exact Hblock|].
  intros _ g Hg. apply Hfree. exists re, groupings, g.
  now rewrite Nat.sub_0_r in Hg.
Qed.

(** X3. Whenever the handler is called, a parameter position that carries
    neither the Address binding, nor the Body binding, nor a capture binding
    of the route receives [undefined]. *)
Theorem unbound_positions_are_undefined
    this path address body inst k args j :
  Called inst k args ∈ (Responder_call this path address body).1 ->
  md_address (metadata_of this) !! this_key this <> Some j ->
  md_body (metadata_of this) !! this_key this <> Some j ->
  ~ capture_bound this j ->
  array_get args j = None.
Proof.
  intros [_ Hblock]%Responder_call_Called Ha Hb Hc.
  rewrite (bind_captures_Proceed_unbound _ _ _ _ _ Hblock Hc).
  rewrite bind_address_body_read. now repeat case_decide.
Qed.

(** X4. Whenever the handler of a regex-typed route is called, the argument
    at the position of a required capture binding is a non-empty string. *)
Theorem required_capture_is_nonempty
    this path address body re groupings i g inst k args :
  this_path this = PRegExp re ->
  md_capture (metadata_of this) !! this_key this = Some groupings ->
  groupings !! i = Some (Some g) ->
  cg_required g = true ->
  Called inst k args ∈ (Responder_call this path address body).1 ->
  exists s, args !! i = Some (Some s) /\ s <> "".
Proof.
  intros Hpath Hmd Hi Hreq [_ Hblock]%Responder_call_Called.
  unfold bind_captures in Hblock. rewrite Hpath, Hmd in Hblock.
  destruct (capture_loop_Proceed _ _ _ _ _ _ _ Hblock Hi)
    as (m & _ & Hpass & Hargs).
  simpl in Hargs. rewrite Hargs.
  pose proof (proj1 (capture_passes_spec m g) Hpass Hreq) as Hfull.
  destruct (array_get m (cg_index g)) as [s|].
  - exists s. split; [reflexivity|]. intros ->. apply Hfull. now right.
  - exfalso. apply Hfull. now left.
Qed.

Lemma bind_captures_fault this path args e :
  bind_captures this path args = Fault e ->
  e = TypeError /\
  exists re, this_path this = PRegExp re /\ exec re path = None.
Proof.
  unfold bind_captures.
  destruct (this_path this) as [s|re]; [discriminate|].
  destruct (md_capture _ !! _) as [groupings|]; [|discriminate].
  intros [-> Hnull]%capture_loop_fault. eauto.
Qed.

(** X5. A call ends in one of four ways: the 401 response at the gate, the
    400 response of the capture block, a [TypeError] thrown by [call]
    itself, all three without any handler call, or exactly one call of the
    entry's own method on the entry's own instance, whose completion, a
    value or a fault, is handed on unchanged. *)
Theorem call_outcomes this path address body :
  (unauthorized this address = true /\
   Responder_call this path address body =
   ([], Normal (response401 (this_responses this)))) \/
  (unauthorized this address = false /\
   Responder_call this path address body =
   ([], Normal (response400 (this_responses this)))) \/
  (unauthorized this address = false /\
   Responder_call this path address body = ([], Throw TypeError)) \/
  (unauthorized this address = false /\
   exists f args,
     handler_of this = Some f /\
     Responder_call this path address body =
     ([Called (this_responder this) (this_key this) args],
      f (constructor_args (this_responder this)) args)).
Proof.
  destruct (unauthorized this address) eqn:Hu.
  - left. split; [reflexivity|]. now apply Responder_call_unauthorized.
  - right. rewrite Responder_call_authorized by exact Hu.
    unfold call_past_gate.
    destruct (bind_captures _ _ _) as [args| |e] eqn:Hblock.
    + destruct (handler_of this) as [f|] eqn:Hf.
      * right. right. split; [reflexivity|]. exists f, args.
        split; [reflexivity|]. now apply apply_method_handler.
      * right. left. split; [reflexivity|].
        unfold handler_of in Hf. unfold apply_method. now rewrite Hf.
    + left. now split.
    + right. left. split; [reflexivity|].
      now apply bind_captures_fault in Hblock as [-> _].
Qed.

(** X6. An entry that [get] returned for a path and a method, invoked with
    the same path, never throws on its own: if the call ends in a fault,
    the handler method was called and the fault is the handler's. *)
Theorem dispatched_call_faults_only_in_handler
    registry path method this address body f e :
  Responders_get registry path method = Some this ->
  handler_of this = Some f ->
  (Responder_call this path address body).2 = Throw e ->
  exists args,
    Responder_call this path address body =
    ([Called (this_responder this) (this_key this) args], Throw e) /\
    f (constructor_args (this_responder this)) args = Throw e.
Proof.
  intros Hget Hf Hthrow.
  apply (find_first (fun r => Responder_match r path method)) in Hget
    as (_ & _ & _ & _ & Hmatch).
  apply Responder_match_spec in Hmatch as [_ Hmatch].
  destruct (unauthorized this address) eqn:Hu.
  { rewrite Responder_call_unauthorized in Hthrow by exact Hu. discriminate. }
  rewrite Responder_call_authorized in * by exact Hu.
  unfold call_past_gate in *.
  destruct (bind_captures _ _ _) as [args| |e'] eqn:Hblock.
  - rewrite (apply_method_handler _ _ _ Hf) in *. simpl in Hthrow.
    exists args. now rewrite Hthrow.
  - discriminate.
  - apply bind_captures_fault in Hblock as (_ & re & Hpath & Hnull).
    rewrite Hpath in Hmatch. unfold test in Hmatch. now rewrite Hnull in Hmatch.
Qed.

(** X7. Past the gate, whether a request is answered with the 400 response
    or with the [TypeError] of [call] depends on the route and on the path
    only, not on the address or the body supplied. *)
Theorem rejection_depends_on_path_only this path address1 body1 address2 body2 :
  unauthorized this address1 = false ->
  unauthorized this address2 = false ->
  (Responder_call this path address1 body1 =
   ([], Normal (response400 (this_responses this))) <->
   Responder_call this path address2 body2 =
   ([], Normal (response400 (this_responses this)))) /\
  (Responder_call this path address1 body1 = ([], Throw TypeError) <->
   Responder_call this path address2 body2 = ([], Throw TypeError)).
Proof.
  intros Hu1 Hu2. rewrite !Responder_call_authorized by assumption.
  unfold call_past_gate.
  assert (Hsame :
    match bind_captures this path (bind_address_body this address1 body1),
          bind_captures this path (bind_address_body this address2 body2) with
    | Proceed _, Proceed _ | Reject, Reject => True
    | Fault e1, Fault e2 => e1 = e2
    | _, _ => False
    end).
  { unfold bind_captures. destruct (this_path this); [exact I|].
    destruct (md_capture _ !! _); [|exact I].
    apply capture_loop_same_ending. }
  destruct (bind_captures this path (bind_address_body this address1 body1))
    as [args1| |e1],
    (bind_captures this path (bind_address_body this address2 body2))
    as [args2| |e2]; try contradiction; [|done|subst; done].
  unfold apply_method. destruct (_ !! _); split; split; congruence.
Qed.

(** X8. [call] does not check the path against the route. For a literal
    route, and for a regex-typed route whose method has no capture
    metadata, the path supplied is not even read: two calls that differ in
    the path only end the same way. *)
Theorem path_is_read_for_captures_only this path1 path2 address body :
  (exists s, this_path this = PString s) \/
  md_capture (metadata_of this) !! this_key this = None ->
  Responder_call this path1 address body =
  Responder_call this path2 address body.
Proof.
  intros Hroute. unfold Responder_call, bind_captures.
  destruct Hroute as [[s ->]| ->]; [reflexivity|].
  now destruct (this_path this).
Qed.

End Entries.

(** ** More on the registry *)

Lemma elem_of_concat_imap {A B : Type} (f : nat -> A -> list B) (l : list A)
    (x : B) :
  x ∈ concat (imap f l) <-> exists k a, l !! k = Some a /\ x ∈ f k a.
Proof.
  revert f. induction l as [|a l IH]; intros f; simpl.
  - split; [intros []%elem_of_nil | intros (k & b & [=] & _)].
  - rewrite elem_of_app, IH. split.
    + intros [Hx|(k & b & Hk & Hx)]; [now exists 0, a | now exists (S k), b].
    + intros ([|k] & b & Hk & Hx); simpl in Hk.
      * injection Hk as <-. now left.
      * right. now exists k, b.
Qed.

Section RegistryLife.

Context {TInjections TResponse : Type}.
Implicit Types (this e : Responder TInjections TResponse).
Implicit Types (registry : Responders TInjections TResponse).
Implicit Types (r : ResponderConstructor TInjections TResponse).
Implicit Types (rs : list (ResponderConstructor TInjections TResponse)).
Implicit Types (injections : list (Injection TInjections)).

(** The [forEach] of [init] over classes with route lists, followed by
    more classes: the entries of the first are pushed, class after class,
    each behind an instance of its own, and the loop goes on. *)
Lemma init_forEach_app injections before rest registry heap :
  all_routed before ->
  init_forEach injections (before ++ rest) registry heap =
  init_forEach injections rest
    (mkResponders
       (responderEntries registry ++
        concat (imap (fun k r =>
                        entries_of (registry_responses registry)
                          (mkInstance (heap + k) r
                             (injected_args injections r))
                          (declared_paths r)) before))
       (responderConstructors registry) (registry_responses registry))
    (heap + length before).
Proof.
  intros Hall. revert registry heap.
  induction Hall as [|r before [paths Hr] _ IH]; intros registry heap; simpl.
  - rewrite app_nil_r, Nat.add_0_r. now destruct registry.
  - rewrite Hr, IH. simpl.
    replace (declared_paths r) with paths
      by (unfold declared_paths; now rewrite Hr).
    rewrite Nat.add_0_r, <- app_assoc. do 2 f_equal; [|lia].
    do 3 f_equal. apply imap_ext. intros k r' _. simpl.
    do 2 f_equal. lia.
Qed.

Lemma init_forEach_all injections rs registry heap :
  all_routed rs ->
  init_forEach injections rs registry heap =
  (Normal tt,
   mkResponders
     (responderEntries registry ++
      concat (imap (fun k r =>
                      entries_of (registry_responses registry)
                        (mkInstance (heap + k) r (injected_args injections r))
                        (declared_paths r)) rs))
     (responderConstructors registry) (registry_responses registry),
   heap + length rs).
Proof.
  intros Hall. pose proof (init_forEach_app injections rs [] registry heap Hall)
    as H. now rewrite app_nil_r in H.
Qed.

(** X9. [get] compares the method with the three verbs as they are
    spelled in [Methods]: a request whose method is not exactly ["get"],
    ["post"] or ["delete"] (an upper-case ["GET"], say) finds no entry,
    whatever the registry holds. *)
Theorem unknown_method_finds_nothing registry path method :
  method <> "get" -> method <> "post" -> method <> "delete" ->
  Responders_get registry path method = None.
Proof.
  intros Hg Hp Hd.
  apply (find_nothing (fun e => Responder_match e path method)).
  apply Forall_forall. intros e _. apply not_true_iff_false.
  intros [Hm _]%Responder_match_spec. destruct (this_method e); simpl in Hm;
    congruence.
Qed.

(** X10. [register] only records the class: after any number of
    registrations on a new registry the classes are kept in registration
    order, there is no entry yet and [get] finds nothing, until [init]
    runs. *)
Theorem registration_alone_dispatches_nothing
    (responses : Responses TResponse) rs path method :
  responderConstructors (foldl Responders_register (Responders_new responses) rs)
  = rs /\
  responderEntries (foldl Responders_register (Responders_new responses) rs)
  = [] /\
  Responders_get (foldl Responders_register (Responders_new responses) rs)
    path method = None.
Proof.
  assert (H : forall registry,
    responderConstructors (foldl Responders_register registry rs)
    = responderConstructors registry ++ rs /\
    responderEntries (foldl Responders_register registry rs)
    = responderEntries registry).
  { induction rs as [|r rs IH]; intros registry; simpl.
    - now rewrite app_nil_r.
    - destruct (IH (Responders_register registry r)) as [-> ->]. simpl.
      now rewrite <- app_assoc. }
  destruct (H (Responders_new responses)) as [Hc He]. simpl in Hc, He.
  split; [exact Hc|]. split; [exact He|].
  unfold Responders_get. now rewrite He.
Qed.

(** X11. [init] is not atomic. When the first registered class without a
    route list comes after classes that have one, [init] throws a
    [TypeError] at that class, and the registry is left with the entries of
    the classes before it; one instance was allocated for each of them and
    for the failing class, and the classes after it were not visited. *)
Theorem init_throws_midway
    registry injections heap before r after :
  responderConstructors registry = before ++ r :: after ->
  all_routed before ->
  md_path (prototype_metadata r) = None ->
  exists registry' pushed,
    Responders_init registry injections heap =
    (Throw TypeError, registry', heap + length before + 1) /\
    responderEntries registry' = responderEntries registry ++ pushed /\
    responderConstructors registry' = responderConstructors registry /\
    map descriptor_of pushed = concat (map declared_paths before) /\
    Forall (fun id => heap <= id < heap + length before) (instance_ids pushed).
Proof.
  intros Hrs Hall Hr. unfold Responders_init.
  rewrite Hrs, (init_forEach_app _ _ _ _ _ Hall). simpl. rewrite Hr.
  eexists _, _. split; [f_equal; lia|]. simpl. split; [reflexivity|].
  split; [now rewrite Hrs|]. split.
  - clear. generalize heap. induction before as [|c before IH]; intros h.
    + reflexivity.
    + simpl. rewrite map_app, descriptor_of_entries_of. f_equal.
      rewrite <- (IH (S h)). do 2 f_equal. apply imap_ext.
      intros k c' _. simpl. do 2 f_equal. lia.
  - apply Forall_forall. intros id.
    unfold instance_ids. rewrite list_elem_of_fmap.
    intros (e & -> & (k & c & Hk & He)%elem_of_concat_imap).
    apply lookup_lt_Some in Hk. unfold entries_of in He.
    apply list_elem_of_fmap in He as (d & -> & _). simpl. lia.
Qed.

(** X12. Every entry that a completed [init] pushes stands for a route
    declared by one of the registered classes: it carries that descriptor,
    the responses of the registry, and the instance made for that class
    in this run, constructed with the injected arguments of the class. *)
Theorem init_binds_entries_to_their_class registry injections heap :
  all_routed (responderConstructors registry) ->
  exists registry' pushed,
    Responders_init registry injections heap =
    (Normal tt, registry',
     heap + length (responderConstructors registry)) /\
    responderEntries registry' = responderEntries registry ++ pushed /\
    forall e, e ∈ pushed ->
      exists k r,
        responderConstructors registry !! k = Some r /\
        this_responder e =
        mkInstance (heap + k) r (injected_args injections r) /\
        descriptor_of e ∈ declared_paths r /\
        this_responses e = registry_responses registry.
Proof.
  intros Hall. unfold Responders_init.
  rewrite (init_forEach_all _ _ _ _ Hall).
  eexists _, _. split; [reflexivity|]. simpl. split; [reflexivity|].
  intros e (k & r & Hk & He)%elem_of_concat_imap.
  exists k, r. split; [exact Hk|].
  unfold entries_of in He. apply list_elem_of_fmap in He as (d & -> & Hd).
  simpl. repeat split. unfold descriptor_of. simpl. now destruct d.
Qed.

(** X13. After a completed [init], a request that fits a route declared by
    a registered class is dispatched: when the method is the verb of the
    descriptor and the path equals its literal pattern, or passes the
    [test] of its [RegExp], [get] returns an entry, and that entry matches
    the request. *)
Theorem declared_route_is_found
    registry injections heap r d path method :
  all_routed (responderConstructors registry) ->
  r ∈ responderConstructors registry ->
  d ∈ declared_paths r ->
  method = Methods_string (def_method d) ->
  match def_path d with
  | PString s => s = path
  | PRegExp re => test re path = true
  end ->
  exists e,
    Responders_get (Responders_init registry injections heap).1.2 path method
    = Some e /\
    Responder_match e path method = true.
Proof.
  intros Hall Hr Hd Hmethod Hpath. unfold Responders_init.
  rewrite (init_forEach_all _ _ _ _ Hall). simpl.
  apply list_elem_of_lookup in Hr as [k Hk].
  set (entries := responderEntries registry ++ _).
  destruct (List.find (fun e => Responder_match e path method) entries)
    as [e|] eqn:Hfind.
  - exists e. split; [exact Hfind|].
    now apply (find_first (fun e => Responder_match e path method))
      in Hfind as (_ & _ & _ & _ & ?).
  - exfalso.
    apply (find_nothing (fun e => Responder_match e path method)) in Hfind.
    rewrite Forall_forall in Hfind.
    set (e := mkResponder
                (mkInstance (heap + k) r (injected_args injections r))
                (def_path d) (def_method d) (def_key d)
                (registry_responses registry)).
    assert (He : e ∈ entries).
    { apply elem_of_app. right. apply elem_of_concat_imap.
      exists k, r. split; [exact Hk|]. unfold entries_of.
      apply list_elem_of_fmap. now exists d. }
    specialize (Hfind e He).
    assert (Responder_match e path method = true); [|congruence].
    apply Responder_match_spec. now split.
Qed.

(** The constructor arguments: a store of a later injection at another
    index leaves the position alone. *)
Lemma injected_args_step_keeps r (l : list (Injection TInjections))
    (acc : list (option TInjections)) i x :
  acc !! i = Some x ->
  Forall (fun w => constructor_metadata r !! inj_key w <> Some i) l ->
  foldl (fun args v =>
           match constructor_metadata r !! inj_key v with
           | Some i => array_set args i (Some (inj_value v))
           | None => args
           end) acc l !! i = Some x.
Proof.
  intros Hacc Hl. revert acc Hacc.
  induction Hl as [|w l Hw _ IH]; intros acc Hacc; simpl; [exact Hacc|].
  apply IH. destruct (constructor_metadata r !! inj_key w) as [j|]; [|exact Hacc].
  apply array_set_lookup_other; [congruence | exact Hacc].
Qed.

(** X14. The constructor arguments that [init] assembles for a class: an
    injection whose key the class binds to parameter [i] puts its value at
    position [i], unless a later injection is bound to the same parameter;
    injections whose key the class does not bind are ignored, so a class
    without constructor bindings is constructed without arguments. *)
Theorem injected_args_hold_the_last_injection injections r :
  (forall earlier v later i,
     injections = earlier ++ v :: later ->
     constructor_metadata r !! inj_key v = Some i ->
     Forall (fun w => constructor_metadata r !! inj_key w <> Some i) later ->
     injected_args injections r !! i = Some (Some (inj_value v))) /\
  (Forall (fun v => constructor_metadata r !! inj_key v = None) injections ->
   injected_args injections r = []).
Proof.
  split.
  - intros earlier v later i -> Hv Hlater. unfold injected_args.
    rewrite foldl_app. simpl. rewrite Hv.
    apply injected_args_step_keeps; [apply array_set_lookup | exact Hlater].
  - unfold injected_args. generalize (@nil (option TInjections)).
    intros acc Hall. revert acc.
    induction Hall as [|v rest Hv _ IH]; intros acc; simpl; [reflexivity|].
    rewrite Hv. apply IH.
Qed.

End RegistryLife.

(** ** Running [init] again *)

(** In [find] over two lists, the second list is never reached when each
    of its hits has a hit in the first. *)
Lemma find_app_shadow {A : Type} (f : A -> bool) (l1 l2 : list A) :
  (forall x, x ∈ l2 -> f x = true -> exists y, y ∈ l1 /\ f y = true) ->
  List.find f (l1 ++ l2) = List.find f l1.
Proof.
  intros Hshadow. induction l1 as [|a l1 IH]; simpl.
  - apply find_nothing. apply Forall_forall. intros x Hx.
    apply not_true_iff_false. intros Hfx.
    destruct (Hshadow x Hx Hfx) as (y & []%elem_of_nil & _).
  - destruct (f a) eqn:Ha; [reflexivity|]. apply IH.
    intros x Hx Hfx. destruct (Hshadow x Hx Hfx) as (y & Hy & Hfy).
    apply elem_of_cons in Hy as [->|Hy]; [congruence | eauto].
Qed.

Section InitAgain.

Context {TInjections TResponse : Type}.
Implicit Types (registry : Responders TInjections TResponse).

(** X15. A second [init] changes nothing for dispatch: the entries it
    pushes come after the entries of the first run, which declare the same
    routes, so [get] returns after two runs what it returned after one, and
    the instances made by the second run never receive a request. *)
Theorem second_init_is_shadowed registry injections heap heap' path method :
  all_routed (responderConstructors registry) ->
  Responders_get
    (Responders_init (Responders_init registry injections heap).1.2
       injections heap').1.2 path method =
  Responders_get (Responders_init registry injections heap).1.2 path method.
Proof.
  intros Hall. unfold Responders_init at 2 3.
  rewrite (init_forEach_all _ _ _ _ Hall). simpl.
  unfold Responders_init. simpl. rewrite (init_forEach_all _ _ _ _ Hall).
  unfold Responders_get. simpl.
  apply find_app_shadow. intros x Hx Hmatch.
  apply elem_of_concat_imap in Hx as (k & r & Hk & Hx).
  unfold entries_of in Hx. apply list_elem_of_fmap in Hx as (d & -> & Hd).
  exists (mkResponder (mkInstance (heap + k) r (injected_args injections r))
            (def_path d) (def_method d) (def_key d)
            (registry_responses registry)).
  split; [|exact Hmatch].
  apply elem_of_app. right. apply elem_of_concat_imap.
  exists k, r. split; [exact Hk|]. unfold entries_of.
  apply list_elem_of_fmap. now exists d.
Qed.

End InitAgain.

(** ** The decorators together *)

(** X16. Decorators of different kinds commute, so the metadata of a class
    does not depend on the order in which its [@protect], [@address],
    [@body], [@capture] and route decorators ran; only the order of the
    route decorators among themselves shows. A repeated [@address], [@body]
    or [@protect] on one method keeps the last declaration alone, and none
    of them touches the bindings of another method. *)
Theorem decorators_commute_and_last_wins target k k2 i j index required :
  (address (address target k i) k j = address target k j /\
   body (body target k i) k j = body target k j /\
   protect (protect target k) k = protect target k) /\
  (k2 <> k ->
   md_address (address target k i) !! k2 = md_address target !! k2 /\
   md_body (body target k i) !! k2 = md_body target !! k2 /\
   md_protect (protect target k) !! k2 = md_protect target !! k2) /\
  (protect (address target k i) k2 = address (protect target k2) k i /\
   protect (body target k i) k2 = body (protect target k2) k i /\
   protect (capture index required target k i) k2 =
   capture index required (protect target k2) k i /\
   address (capture index required target k i) k2 j =
   capture index required (address target k2 j) k i /\
   body (capture index required target k i) k2 j =
   capture index required (body target k2 j) k i /\
   address (body target k i) k2 j = body (address target k2 j) k i) /\
  (forall d,
     declare (protect target k) d = protect (declare target d) k /\
     declare (address target k i) d = address (declare target d) k i /\
     declare (body target k i) d = body (declare target d) k i /\
     declare (capture index required target k i) d =
     capture index required (declare target d) k i).
Proof.
  split; [|split; [|split]].
  - unfold address, body, protect. simpl. now rewrite !insert_insert_eq.
  - intros Hne. simpl. now rewrite !lookup_insert_ne.
  - repeat split.
  - intros [kd pd []]; repeat split.
Qed.

(** ** The sample classes, again *)

Lemma unbound_positions_are_undefined_witness :
  exists args,
    Called Reports_instance "late" args
    ∈ (Responder_call entry_late "/late" (Some "alice") (Some "b")).1 /\
    args !! 2 = Some (Some "alice") /\
    array_get args 0 = None /\ array_get args 1 = None.
Proof.
  exists [None; None; Some "alice"].
  assert (Hcall :
    Called Reports_instance "late" [None; None; Some "alice"]
    ∈ (Responder_call entry_late "/late" (Some "alice") (Some "b")).1).
  { vm_compute. apply list_elem_of_here. }
  split; [exact Hcall|]. split; [reflexivity|]. split.
  - apply (unbound_positions_are_undefined entry_late "/late" (Some "alice")
             (Some "b") Reports_instance "late" _ 0 Hcall).
    + vm_compute. discriminate.
    + vm_compute. discriminate.
    + intros (re & groupings & g & Hpath & _). discriminate.
  - apply (unbound_positions_are_undefined entry_late "/late" (Some "alice")
             (Some "b") Reports_instance "late" _ 1 Hcall).
    + vm_compute. discriminate.
    + vm_compute. discriminate.
    + intros (re & groupings & g & Hpath & _). discriminate.
Defined.

Lemma required_capture_is_nonempty_witness :
  exists s,
    [Some "42"] !! 0 = Some (Some s) /\ s <> "".
Proof.
  apply (required_capture_is_nonempty entry_getItem "/items/42" None None
           (regexp items_pattern) [Some (mkGrouping 1 true)] 0
           (mkGrouping 1 true) Items_instance "getItem" [Some "42"]).
  - reflexivity.
  - vm_compute. reflexivity.
  - reflexivity.
  - reflexivity.
  - vm_compute. apply list_elem_of_here.
Defined.

Lemma dispatched_call_faults_only_in_handler_witness :
  this_key <$> Responders_get reports_initialised "/items/7" "get"
  = Some "crash" /\
  exists args,
    Responder_call entry_crash "/items/7" None None
    = ([Called Reports_instance "crash" args], Throw (UserError "boom")) /\
    boom [] args = Throw (UserError "boom").
Proof.
  split; [vm_compute; reflexivity|].
  apply (dispatched_call_faults_only_in_handler reports_initialised
           "/items/7" "get" entry_crash None None boom (UserError "boom")).
  - vm_compute. reflexivity.
  - vm_compute. reflexivity.
  - vm_compute. reflexivity.
Defined.

Lemma rejection_depends_on_path_only_witness :
  Responder_call entry_pair "/u//" (Some "alice") (Some "payload")
  = ([], Normal "400").
Proof.
  destruct (rejection_depends_on_path_only entry_pair "/u//" None None
              (Some "alice") (Some "payload")) as [Hsame _].
  - vm_compute. reflexivity.
  - vm_compute. reflexivity.
  - apply Hsame. vm_compute. reflexivity.
Defined.

Lemma path_is_read_for_captures_only_witness :
  Responder_call entry_login "/login" (Some "alice") (Some "pw")
  = Responder_call entry_login "/elsewhere" (Some "alice") (Some "pw").
Proof.
  apply (path_is_read_for_captures_only entry_login "/login" "/elsewhere").
  left. exists "/login". reflexivity.
Defined.

Lemma unknown_method_finds_nothing_witness :
  Responders_get sample_initialised "/items/42" "GET" = None /\
  this_key <$> Responders_get sample_initialised "/items/42" "get"
  = Some "getItem".
Proof.
  split; [|vm_compute; reflexivity].
  apply (unknown_method_finds_nothing sample_initialised "/items/42" "GET");
    discriminate.
Defined.

Lemma init_throws_midway_witness :
  exists registry' pushed,
    Responders_init broken_registry sample_injections 0
    = (Throw TypeError, registry', 2) /\
    responderEntries registry' = pushed /\
    map def_key (map descriptor_of pushed)
    = ["getItem"; "listItems"; "login"; "strict"; "lenient"].
Proof.
  destruct (init_throws_midway broken_registry sample_injections 0
              [Items] Bare [Users])
    as (registry' & pushed & Hinit & Hentries & _ & Hdesc & _).
  - reflexivity.
  - repeat constructor. vm_compute. eauto.
  - reflexivity.
  - exists registry', pushed. split; [exact Hinit|].
    split; [exact Hentries|]. rewrite Hdesc. vm_compute. reflexivity.
Defined.

Lemma init_binds_entries_to_their_class_witness :
  exists registry' pushed,
    Responders_init sample_registry sample_injections 0
    = (Normal tt, registry', 2) /\
    responderEntries registry' = pushed /\
    forall e, e ∈ pushed ->
      (this_responder e = Items_instance \/ this_responder e = Users_instance)
      /\ this_responses e = sample_responses.
Proof.
  destruct (init_binds_entries_to_their_class sample_registry
              sample_injections 0)
    as (registry' & pushed & Hinit & Hentries & Hbound).
  - repeat constructor; vm_compute; eauto.
  - exists registry', pushed. split; [exact Hinit|].
    split; [exact Hentries|]. intros e He.
    destruct (Hbound e He) as (k & r & Hk & Hinst & _ & Hresp).
    split; [|exact Hresp]. rewrite Hinst.
    destruct k as [|[|k]]; simpl in Hk; try discriminate;
      injection Hk as <-; [left | right]; vm_compute; reflexivity.
Defined.

Lemma declared_route_is_found_witness :
  exists e,
    Responders_get sample_initialised "/items" "get" = Some e /\
    Responder_match e "/items" "get" = true.
Proof.
  apply (declared_route_is_found sample_registry sample_injections 0
           Items (mkDefinition "listItems" (PString "/items") M_get)
           "/items" "get").
  - repeat constructor; vm_compute; eauto.
  - simpl. repeat constructor.
  - vm_compute. repeat constructor.
  - reflexivity.
  - reflexivity.
Defined.

Lemma second_init_is_shadowed_witness :
  Responders_get
    (Responders_init sample_initialised sample_injections 2).1.2
    "/items/42" "get"
  = Responders_get sample_initialised "/items/42" "get".
Proof.
  apply (second_init_is_shadowed sample_registry sample_injections 0 2
           "/items/42" "get").
  repeat constructor; vm_compute; eauto.
Defined.
